(** * twik: built-in functions and special forms (globals.go)

    A shallow embedding of [globals.go] of the twik evaluator.  Go values
    that live behind pointers ([*big.Rat], [*Scope], the variables captured
    by a function literal) are kept in an explicit heap, because the
    behaviour of the equality test, of the arithmetic accumulators and of closure
    invocation depends on pointer identity and on in-place mutation. *)

From Stdlib Require Import QArith Qcanon.
From stdpp Require Import gmap strings list fin_maps pretty.

Set Warnings "-register-all".
Local Close Scope Qc_scope.
Local Close Scope Q_scope.
Local Open Scope string_scope.
Local Open Scope list_scope.
Local Open Scope nat_scope.

(** ** Values and syntax trees *)

(** Heap addresses. *)
Abbreviation addr := nat (only parsing).

(** The functions of [defaultGlobals] with Go type
    [func([]interface{}) (interface{}, error)]. *)
Inductive builtin := BError | BEq | BNe | BPlus | BMinus | BMul | BDiv.

(** The functions of [defaultGlobals] with Go type
    [func(scope, []ast.Node) (interface{}, error)] (special forms, which
    receive the current scope and the unevaluated operand nodes). *)
Inductive special := SOr | SAnd | SIf | SVar | SSet | SDo | SFunc.

(** An [interface{}] as the evaluator sees it.  A [*big.Rat] is a pointer
    ([None] is the nil pointer); a function literal built by [funcFn] is a
    reference to its closure record. *)
Inductive Value :=
| VNil
| VBool (b : bool)
| VString (s : string)
| VRat (p : option addr)
| VFunc (f : builtin)
| VClosure (c : addr)
| VSpecial (f : special).

(** [ast.Node]: symbols, lists and literals. *)
Inductive Node :=
| Symbol (Name : string)
| List (Nodes : list Node)
| Lit (v : Value).

(** ** The heap *)

(** A [Scope] object: the parent link and the table of this level. *)
Record Scope := mkScope { parent : option addr; vars : gmap string Value }.

(** The variables captured by the function literal [fn] of [funcFn].
    [cl_scope] is the captured variable [scope]: the literal assigns to it,
    so it is a mutable cell shared by all invocations. *)
Record Closure := mkClosure {
  cl_scope : addr;
  cl_name : string;
  cl_params : list Node;
  cl_body : list Node
}.

Record Heap := mkHeap {
  scopes : list Scope;
  rats : list Qc;
  closures : list Closure
}.

Definition set_scopes (f : list Scope -> list Scope) (h : Heap) : Heap :=
  mkHeap (f (scopes h)) (rats h) (closures h).
Definition set_rats (f : list Qc -> list Qc) (h : Heap) : Heap :=
  mkHeap (scopes h) (f (rats h)) (closures h).
Definition set_closures (f : list Closure -> list Closure) (h : Heap) : Heap :=
  mkHeap (scopes h) (rats h) (f (closures h)).

(** ** Errors, panics and the evaluation monad *)

(** A Go [error] value.  [ErrorValue prefix v] stands for
    [fmt.Errorf(prefix + "%#v", v)], whose rendering of [v] is left
    symbolic.  [ErrorQuoted before name after] stands for the message
    [before], then [name] as the verb [%q] prints it, then [after]: the
    quoting done by [strconv.Quote] is left symbolic as well.  The last four
    are the error kinds of the scope and of the evaluator. *)
Inductive error :=
| ErrorString (msg : string)
| ErrorValue (prefix : string) (v : Value)
| ErrorQuoted (before : string) (name : string) (after : string)
| DuplicateBinding (name : string)
| UnboundSymbol (name : string)
| NotCallable (v : Value)
| EmptyCall.

(** A Go panic: the run-time panics the code can raise, and
    [panic(prefix + err.Error())]. *)
Inductive panic :=
| NilPointerDereference
| RatDivisionByZero
| UncomparableType
| TypeAssertion
| IndexOutOfRange
| PanicError (prefix : string) (e : error).

Inductive outcome (A : Type) :=
| Ret (a : A)
| Err (e : error)
| Panic (p : panic)
| OutOfFuel.
Arguments Ret {A} a.
Arguments Err {A} e.
Arguments Panic {A} p.
Arguments OutOfFuel {A}.

Definition M (A : Type) : Type := Heap -> outcome A * Heap.

Definition ret {A} (a : A) : M A := fun h => (Ret a, h).
Definition raise {A} (e : error) : M A := fun h => (Err e, h).
Definition throw {A} (p : panic) : M A := fun h => (Panic p, h).
Definition bind {A B} (m : M A) (k : A -> M B) : M B :=
  fun h =>
    match m h with
    | (Ret a, h') => k a h'
    | (Err e, h') => (Err e, h')
    | (Panic p, h') => (Panic p, h')
    | (OutOfFuel, h') => (OutOfFuel, h')
    end.

Declare Scope go_scope.
Delimit Scope go_scope with go.
Notation "x <- c ;; k" := (bind c (fun x => k))
  (at level 100, c at next level, right associativity) : go_scope.
Notation "c ;;; k" := (bind c (fun _ => k))
  (at level 100, right associativity) : go_scope.
Local Open Scope go_scope.

(** ** math/big.Rat

    A [big.Rat] is always normalised, so its contents are a canonical
    rational [Qc].  The methods below take the receiver [z] and the
    operands as pointers, write the result into [z] and return [z], as the
    Go methods do; a nil pointer faults. *)

Definition Rat_load (p : option addr) : M Qc :=
  fun h =>
    match p with
    | Some a =>
        match rats h !! a with
        | Some q => (Ret q, h)
        | None => (Panic NilPointerDereference, h)
        end
    | None => (Panic NilPointerDereference, h)
    end.

Definition Rat_store (p : option addr) (q : Qc) : M unit :=
  fun h =>
    match p with
    | Some a =>
        match rats h !! a with
        | Some _ => (Ret tt, set_rats (fun l => <[a:=q]> l) h)
        | None => (Panic NilPointerDereference, h)
        end
    | None => (Panic NilPointerDereference, h)
    end.

(** [big.NewRat(a, b)] for the two constants the code builds. *)
Definition push_rat (q : Qc) (h : Heap) : Heap :=
  set_rats (fun l => l ++ [q]) h.

Definition Rat_new (q : Qc) : M (option addr) :=
  fun h => (Ret (Some (length (rats h))), push_rat q h).

Definition newRatZero : M (option addr) := Rat_new (Q2Qc 0).
Definition newRatOne : M (option addr) := Rat_new (Q2Qc 1).

Definition Rat_Set (z x : option addr) : M (option addr) :=
  qx <- Rat_load x ;; Rat_store z qx ;;; ret z.

(** The common shape of [Add], [Sub] and [Mul]: [z := f x y]. *)
Definition Rat_binop (f : Qc -> Qc -> Qc) (z x y : option addr) : M (option addr) :=
  qx <- Rat_load x ;; qy <- Rat_load y ;; Rat_store z (f qx qy) ;;; ret z.

Definition Rat_Add : option addr -> option addr -> option addr -> M (option addr) :=
  Rat_binop Qcplus.
Definition Rat_Sub : option addr -> option addr -> option addr -> M (option addr) :=
  Rat_binop Qcminus.
Definition Rat_Mul : option addr -> option addr -> option addr -> M (option addr) :=
  Rat_binop Qcmult.

(** [Quo] panics with "division by zero" when [y] is zero. *)
Definition Rat_Quo (z x y : option addr) : M (option addr) :=
  qx <- Rat_load x ;;
  qy <- Rat_load y ;;
  if Qc_eq_dec qy (Q2Qc 0) then throw RatDivisionByZero
  else Rat_store z (qx / qy)%Qc ;;; ret z.

(** ** Built-in functions *)

(** The double-quote character, for the messages that contain one. *)
Definition dq : string := String (Ascii.ascii_of_nat 34) EmptyString.

Definition errorFn (args : list Value) : M Value :=
  match args with
  | [VString s] => raise (ErrorString s)
  | _ => raise (ErrorString "error function takes a single string argument")
  end.

(** Go's [==] on two [interface{}] values: different dynamic types are
    unequal, pointers compare by address, and two values of the same
    function type cannot be compared (a run-time panic). *)
Definition interface_eq (x y : Value) : M bool :=
  match x, y with
  | VNil, VNil => ret true
  | VBool a, VBool b => ret (bool_decide (a = b))
  | VString a, VString b => ret (bool_decide (a = b))
  | VRat p, VRat q => ret (bool_decide (p = q))
  | (VFunc _ | VClosure _), (VFunc _ | VClosure _) => throw UncomparableType
  | VSpecial _, VSpecial _ => throw UncomparableType
  | _, _ => ret false
  end.

Definition eqFn (args : list Value) : M Value :=
  match args with
  | [x; y] => b <- interface_eq x y ;; ret (VBool b)
  | _ => raise (ErrorString "== expects two values")
  end.

Definition neFn (args : list Value) : M Value :=
  match args with
  | [x; y] => b <- interface_eq x y ;; ret (VBool (negb b))
  | _ => raise (ErrorString "!= expects two values")
  end.

(** The [for _, arg := range args] loop of [plusFn] from some position on,
    with the accumulator [res]. *)
Fixpoint plusFn_loop (args : list Value) (res : option addr) : M Value :=
  match args with
  | [] => ret (VRat res)
  | VRat arg :: rest => _ <- Rat_Add res res arg ;; plusFn_loop rest res
  | arg :: _ => raise (ErrorValue "cannot sum " arg)
  end.

Definition plusFn (args : list Value) : M Value :=
  res <- newRatZero ;; plusFn_loop args res.

(** The loop of [minusFn]; [i] is the index of the head of [args] and [n]
    is [len(args)] of the whole call. *)
Fixpoint minusFn_loop (n i : nat) (args : list Value) (res : option addr) : M Value :=
  match args with
  | [] => ret (VRat res)
  | VRat arg :: rest =>
      if bool_decide (i = 0) && bool_decide (1 < n) then
        z <- newRatZero ;;
        res' <- Rat_Set z arg ;;
        minusFn_loop n (S i) rest res'
      else
        _ <- Rat_Sub res res arg ;;
        minusFn_loop n (S i) rest res
  | arg :: _ => raise (ErrorValue "cannot subtract " arg)
  end.

Definition minusFn (args : list Value) : M Value :=
  if bool_decide (length args = 0) then
    raise (ErrorString ("function " +:+ dq +:+ "-" +:+ dq +:+ " takes one or more arguments"))
  else minusFn_loop (length args) 0 args None.

Fixpoint mulFn_loop (args : list Value) (res : option addr) : M Value :=
  match args with
  | [] => ret (VRat res)
  | VRat arg :: rest => _ <- Rat_Mul res res arg ;; mulFn_loop rest res
  | arg :: _ => raise (ErrorValue "cannot multiply " arg)
  end.

Definition mulFn (args : list Value) : M Value :=
  res <- newRatOne ;; mulFn_loop args res.

Fixpoint divFn_loop (n i : nat) (args : list Value) (res : option addr) : M Value :=
  match args with
  | [] => ret (VRat res)
  | VRat arg :: rest =>
      if bool_decide (i = 0) && bool_decide (1 < n) then
        z <- newRatZero ;;
        res' <- Rat_Set z arg ;;
        divFn_loop n (S i) rest res'
      else
        _ <- Rat_Quo res res arg ;;
        divFn_loop n (S i) rest res
  | arg :: _ => raise (ErrorValue "cannot divide with " arg)
  end.

Definition divFn (args : list Value) : M Value :=
  if bool_decide (length args < 2) then
    raise (ErrorString ("function " +:+ dq +:+ "/" +:+ dq +:+ " takes two or more arguments"))
  else divFn_loop (length args) 0 args None.

Definition call_builtin (f : builtin) : list Value -> M Value :=
  match f with
  | BError => errorFn
  | BEq => eqFn
  | BNe => neFn
  | BPlus => plusFn
  | BMinus => minusFn
  | BMul => mulFn
  | BDiv => divFn
  end.

(** ** Scopes *)

Definition load_scope (s : addr) : M Scope :=
  fun h =>
    match scopes h !! s with
    | Some sc => (Ret sc, h)
    | None => (Panic NilPointerDereference, h)
    end.

(** Modelled from the spec: [Scope.Create] is not part of globals.go.
    Spec 4.1: binds [name] in this table only and fails with
    DuplicateBinding if [name] already exists in this table (not in the
    ancestors). *)
Definition Scope_Create (s : addr) (name : string) (value : Value) : M unit :=
  sc <- load_scope s ;;
  match vars sc !! name with
  | Some _ => raise (DuplicateBinding name)
  | None =>
      fun h => (Ret tt, set_scopes (fun l => <[s := mkScope (parent sc) (<[name := value]> (vars sc))]> l) h)
  end.

(** Modelled from the spec: the search shared by [Set] and [Lookup] is not
    part of globals.go.  Spec 4.1: the nearest table, from [s] outward to
    the root, that binds [name].  The walk follows at most as many parent
    links as there are scopes, which is enough for every chain that ends. *)
Fixpoint Scope_find (fuel : nat) (scps : list Scope) (s : option addr) (name : string)
    : outcome addr :=
  match s with
  | None => Err (UnboundSymbol name)
  | Some a =>
      match fuel with
      | 0 => OutOfFuel
      | S fuel' =>
          match scps !! a with
          | None => Panic NilPointerDereference
          | Some sc =>
              match vars sc !! name with
              | Some _ => Ret a
              | None => Scope_find fuel' scps (parent sc) name
              end
          end
      end
  end.

Definition find (s : addr) (name : string) : M addr :=
  fun h => (Scope_find (length (scopes h)) (scopes h) (Some s) name, h).

(** Modelled from the spec: [Scope.Set] is not part of globals.go.
    Spec 4.1: finds the nearest table, starting at this one and walking
    to the root, that already binds [name], and overwrites it there; fails
    with UnboundSymbol if no table in the chain defines [name]. *)
Definition Scope_Set (s : addr) (name : string) (value : Value) : M unit :=
  a <- find s name ;;
  sc <- load_scope a ;;
  fun h => (Ret tt, set_scopes (fun l => <[a := mkScope (parent sc) (<[name := value]> (vars sc))]> l) h).

(** Modelled from the spec: the scope's lookup is not part of globals.go.
    Spec 4.1: same search order as [Set]; returns the bound value or
    fails with UnboundSymbol. *)
Definition Scope_Lookup (s : addr) (name : string) : M Value :=
  a <- find s name ;;
  sc <- load_scope a ;;
  match vars sc !! name with
  | Some v => ret v
  | None => raise (UnboundSymbol name)
  end.

(** Modelled from the spec: [Scope.Branch] is not part of globals.go.
    Spec 4.1: returns a new empty table whose parent is this table. *)
Definition Scope_Branch (s : addr) : M addr :=
  _ <- load_scope s ;;
  fun h => (Ret (length (scopes h)), set_scopes (fun l => l ++ [mkScope (Some s) ∅]) h).

(** ** Closures *)

Definition load_closure (c : addr) : M Closure :=
  fun h =>
    match closures h !! c with
    | Some cl => (Ret cl, h)
    | None => (Panic NilPointerDereference, h)
    end.

(** Reading and assigning the captured variable [scope] of a closure. *)
Definition captured_scope (c : addr) : M addr :=
  cl <- load_closure c ;; ret (cl_scope cl).

Definition assign_captured_scope (c : addr) (s : addr) : M unit :=
  cl <- load_closure c ;;
  fun h => (Ret tt,
            set_closures (fun l => <[c := mkClosure s (cl_name cl) (cl_params cl) (cl_body cl)]> l) h).

Definition new_closure (cl : Closure) : M addr :=
  fun h => (Ret (length (closures h)), set_closures (fun l => l ++ [cl]) h).

(** [panic("must not happen: " + err.Error())] when [m] returns an error. *)
Definition must_not_happen (m : M unit) : M unit :=
  fun h =>
    match m h with
    | (Err e, h') => (Panic (PanicError "must not happen: " e), h')
    | r => r
    end.

(** ** Formatting *)

(** A string that [fmt.Sprintf] builds with at most one verb [%q]: the
    text before it, the argument of [%q] when there is one (its quoted
    form is not computed), and the text after it. *)
Record text := mkText {
  text_before : string;
  text_quoted : option string;
  text_after : string
}.

(** [fmt.Errorf("%s" + suffix, info)]. *)
Definition Errorf_s (info : text) (suffix : string) : error :=
  match text_quoted info with
  | None => ErrorString (text_before info +:+ text_after info +:+ suffix)
  | Some name => ErrorQuoted (text_before info) name (text_after info +:+ suffix)
  end.

(** The verb [%d] applied to a length. *)
Definition fmt_d (n : nat) : string := pretty n.

(** ** Special forms

    A special form receives the scope and the unevaluated operands and
    calls [scope.Eval] on the operands it chooses.  [Scope.Eval] is not
    part of globals.go; the forms are written against an arbitrary
    evaluation function [Eval], which the evaluator below instantiates. *)

Definition is_false (v : Value) : bool :=
  match v with
  | VBool false => true
  | _ => false
  end.

Section SpecialForms.

Variable Eval : addr -> Node -> M Value.

Fixpoint andFn_loop (scope : addr) (args : list Node) (value : Value) : M Value :=
  match args with
  | [] => ret value
  | arg :: rest =>
      value <- Eval scope arg ;;
      if is_false value then ret (VBool false)
      else andFn_loop scope rest value
  end.

Definition andFn (scope : addr) (args : list Node) : M Value :=
  if bool_decide (length args = 0) then ret (VBool true)
  else andFn_loop scope args VNil.

Fixpoint orFn_loop (scope : addr) (args : list Node) (value : Value) : M Value :=
  match args with
  | [] => ret value
  | arg :: rest =>
      value <- Eval scope arg ;;
      if negb (is_false value) then ret value
      else orFn_loop scope rest value
  end.

Definition orFn (scope : addr) (args : list Node) : M Value :=
  if bool_decide (length args = 0) then ret (VBool false)
  else orFn_loop scope args VNil.

Definition ifFn (scope : addr) (args : list Node) : M Value :=
  if bool_decide (length args < 2) || bool_decide (3 < length args) then
    raise (ErrorString ("function " +:+ dq +:+ "if" +:+ dq +:+ " takes two or three arguments"))
  else
    match args with
    | cond :: rest =>
        value <- Eval scope cond ;;
        if is_false value then
          match rest with
          | [_; other] => Eval scope other
          | _ => ret (VBool false)
          end
        else
          match rest with
          | branch :: _ => Eval scope branch
          | [] => throw IndexOutOfRange
          end
    | [] => throw IndexOutOfRange
    end.

Definition varFn (scope : addr) (args : list Node) : M Value :=
  if bool_decide (length args = 0) || bool_decide (2 < length args) then
    raise (ErrorString "var takes one or two arguments")
  else
    match args with
    | Symbol name :: rest =>
        value <- match rest with
                 | [] => ret VNil
                 | init :: _ => Eval scope init
                 end ;;
        Scope_Create scope name value ;;;
        ret VNil
    | _ => raise (ErrorString "var takes a symbol as first argument")
    end.

Definition setFn (scope : addr) (args : list Node) : M Value :=
  match args with
  | [target; source] =>
      match target with
      | Symbol name =>
          value <- Eval scope source ;;
          Scope_Set scope name value ;;;
          ret VNil
      | _ => raise (ErrorString ("function " +:+ dq +:+ "set" +:+ dq +:+ " takes a symbol as first argument"))
      end
  | _ => raise (ErrorString ("function " +:+ dq +:+ "set" +:+ dq +:+ " takes two arguments"))
  end.

(** The loop shared in shape by [doFn] and by the body of a closure is
    written out for each, because the closure re-reads its captured
    variable at every node. *)
Fixpoint doFn_loop (scope : addr) (args : list Node) (value : Value) : M Value :=
  match args with
  | [] => ret value
  | arg :: rest => value <- Eval scope arg ;; doFn_loop scope rest value
  end.

Definition doFn (scope : addr) (args : list Node) : M Value :=
  scope <- Scope_Branch scope ;;
  doFn_loop scope args VNil.

(** *** The function literal [fn] of [funcFn] *)

(** [nameInfo]: the constant text, or [fmt.Sprintf("function %q", name)]. *)
Definition nameInfo (name : string) : text :=
  if bool_decide (name = "") then mkText "anonymous function" None ""
  else mkText "function " (Some name) "".

Definition arity_error (name : string) (nparams : nat) : error :=
  match nparams with
  | 0 => Errorf_s (nameInfo name) " takes no arguments"
  | 1 => Errorf_s (nameInfo name) " takes one argument"
  | _ => Errorf_s (nameInfo name) (" takes " +:+ fmt_d nparams +:+ " arguments")
  end.

(** [for i, arg := range args { scope.Create(params[i].(Symbol).Name, arg) }],
    from index [i] on. *)
Fixpoint fn_bind (c : addr) (params : list Node) (i : nat) (args : list Value) : M unit :=
  match args with
  | [] => ret tt
  | arg :: rest =>
      match params !! i with
      | None => throw IndexOutOfRange
      | Some (Symbol name) =>
          scope <- captured_scope c ;;
          must_not_happen (Scope_Create scope name arg) ;;;
          fn_bind c params (S i) rest
      | Some _ => throw TypeAssertion
      end
  end.

(** [for _, node := range body { value, err = scope.Eval(node) ... }]:
    the receiver [scope] is the captured variable, read at each node. *)
Fixpoint fn_body (c : addr) (body : list Node) (value : Value) : M Value :=
  match body with
  | [] => ret value
  | node :: rest =>
      scope <- captured_scope c ;;
      value <- Eval scope node ;;
      fn_body c rest value
  end.

Definition fn (c : addr) (args : list Value) : M Value :=
  cl <- load_closure c ;;
  if negb (bool_decide (length args = length (cl_params cl))) then
    raise (arity_error (cl_name cl) (length (cl_params cl)))
  else
    scope <- captured_scope c ;;
    scope' <- Scope_Branch scope ;;
    assign_captured_scope c scope' ;;;
    fn_bind c (cl_params cl) 0 args ;;;
    fn_body c (cl_body cl) VNil.

Definition is_symbol (n : Node) : bool :=
  match n with
  | Symbol _ => true
  | _ => false
  end.

Definition funcFn (scope : addr) (args : list Node) : M Value :=
  if bool_decide (length args < 2) then
    raise (ErrorString "func takes three or more arguments")
  else
    let '(name, i) :=
      match args with
      | Symbol name :: _ => (name, 1)
      | _ => ("", 0)
      end in
    match args !! i with
    | Some (List params) =>
        if negb (forallb is_symbol params) then
          raise (ErrorString "func's list of parameters must be a list of symbols")
        else
          let body := drop (i + 1) args in
          if bool_decide (length body = 0) then
            raise (ErrorString "func takes a body sequence")
          else
            c <- new_closure (mkClosure scope name params body) ;;
            (if negb (bool_decide (name = "")) then
               scope <- captured_scope c ;;
               Scope_Create scope name (VClosure c)
             else ret tt) ;;;
            ret (VClosure c)
    | Some _ => raise (ErrorString "func takes a list of parameters")
    | None => throw IndexOutOfRange
    end.

Definition call_special (f : special) : addr -> list Node -> M Value :=
  match f with
  | SOr => orFn
  | SAnd => andFn
  | SIf => ifFn
  | SVar => varFn
  | SSet => setFn
  | SDo => doFn
  | SFunc => funcFn
  end.

End SpecialForms.

(** ** The evaluator *)

Definition defaultGlobals : list (string * Value) :=
  [ ("true", VBool true);
    ("false", VBool false);
    ("nil", VNil);
    ("error", VFunc BError);
    ("==", VFunc BEq);
    ("!=", VFunc BNe);
    ("+", VFunc BPlus);
    ("-", VFunc BMinus);
    ("*", VFunc BMul);
    ("/", VFunc BDiv);
    ("or", VSpecial SOr);
    ("and", VSpecial SAnd);
    ("if", VSpecial SIf);
    ("var", VSpecial SVar);
    ("set", VSpecial SSet);
    ("do", VSpecial SDo);
    ("func", VSpecial SFunc) ].

(** Modelled from the spec: the construction of the root scope is not part
    of globals.go.  Spec 6: a fresh root environment, without parent,
    pre-seeded with the default table. *)
Definition NewScope : M addr :=
  fun h => (Ret (length (scopes h)),
            set_scopes (fun l => l ++ [mkScope None (list_to_map defaultGlobals)]) h).

(** The registered special form a node names, if it is a symbol that
    names one. *)
Definition special_form (first : Node) : option special :=
  match first with
  | Symbol name =>
      match (list_to_map defaultGlobals : gmap string Value) !! name with
      | Some (VSpecial f) => Some f
      | _ => None
      end
  | _ => None
  end.

Section Arguments.

Variable Eval : addr -> Node -> M Value.

(** The operands of an ordinary call, evaluated left to right. *)
Fixpoint eval_args (scope : addr) (nodes : list Node) : M (list Value) :=
  match nodes with
  | [] => ret []
  | node :: rest =>
      v <- Eval scope node ;;
      vs <- eval_args scope rest ;;
      ret (v :: vs)
  end.

End Arguments.

(** Modelled from the spec: [Scope.Eval] is not part of globals.go.
    Spec 4.2: a literal evaluates to its value, a symbol is looked up,
    the empty list is an error; a list whose first element is a symbol
    naming a registered special form goes to that form with the remaining
    nodes unevaluated; otherwise the first element is evaluated to a
    callable, the remaining elements are evaluated left to right and the
    callable is invoked on them.  [fuel] bounds the nesting of calls. *)
Fixpoint Scope_Eval (fuel : nat) (scope : addr) (node : Node) : M Value :=
  match fuel with
  | 0 => fun h => (OutOfFuel, h)
  | S fuel' =>
      match node with
      | Lit v => ret v
      | Symbol name => Scope_Lookup scope name
      | List [] => raise EmptyCall
      | List (first :: rest) =>
          match special_form first with
          | Some f => call_special (Scope_Eval fuel') f scope rest
          | None =>
              callee <- Scope_Eval fuel' scope first ;;
              match callee with
              | VFunc f =>
                  args <- eval_args (Scope_Eval fuel') scope rest ;;
                  call_builtin f args
              | VClosure c =>
                  args <- eval_args (Scope_Eval fuel') scope rest ;;
                  fn (Scope_Eval fuel') c args
              | v => raise (NotCallable v)
              end
          end
      end
  end.

(** A heap holding the rationals [qs] (the numbers of a parsed program)
    and a root scope at address 0. *)
Definition root_heap (qs : list Qc) : Heap :=
  snd (NewScope (mkHeap [] qs [])).

(** The literal whose [big.Rat] lives at address [a]. *)
Definition Num (a : addr) : Node := Lit (VRat (Some a)).

Definition call (name : string) (operands : list Node) : Node :=
  List (Symbol name :: operands).

Definition qc (n : Z) : Qc := Q2Qc (inject_Z n).

(** The contents of the rational a value points to. *)
Definition rat_of (h : Heap) (v : Value) : option Qc :=
  match v with
  | VRat (Some a) => rats h !! a
  | _ => None
  end.

(** ** Predicates of the statements *)

(** [v] is a non-nil rational of heap [h] with contents [q]. *)
Definition rat_at (h : Heap) (v : Value) (q : Qc) : Prop :=
  exists a, v = VRat (Some a) /\ rats h !! a = Some q.

Definition is_rat (v : Value) : bool :=
  match v with
  | VRat _ => true
  | _ => false
  end.

(** [a == (a/b)*b] as the built-ins compute it: the quotient, the product,
    then the comparison.  The product is returned with the verdict. *)
Definition round_trip (a b : Value) : M (Value * Value) :=
  quotient <- divFn [a; b] ;;
  product <- mulFn [quotient; b] ;;
  verdict <- eqFn [a; product] ;;
  ret (product, verdict).

Section Sequences.

Variable Eval : addr -> Node -> M Value.
Variable scope : addr.

(** [evals nodes h vs h']: evaluating [nodes] in order from heap [h]
    returns the values [vs], one per node, and leaves heap [h']. *)
Inductive evals : list Node -> Heap -> list Value -> Heap -> Prop :=
| evals_nil h : evals [] h [] h
| evals_cons node nodes h v h1 vs h2 :
    Eval scope node h = (Ret v, h1) ->
    evals nodes h1 vs h2 ->
    evals (node :: nodes) h (v :: vs) h2.

End Sequences.

(** The state of the binding loop of closure [c] (with record [cl] and
    parameter names [names]) before index [i], in the invocation that
    received [args0], branched scope [n] from scope [s0]: the captured
    variable holds [n], and the table of [n] binds exactly the first [i]
    names, each to the argument at its last position. *)
Definition binding (c : addr) (cl : Closure) (names : list string) (args0 : list Value)
    (n s0 : addr) (i : nat) (g : Heap) : Prop :=
  closures g !! c = Some (mkClosure n (cl_name cl) (cl_params cl) (cl_body cl))
  /\ exists sc, scopes g !! n = Some sc
       /\ parent sc = Some s0
       /\ (forall x, is_Some (vars sc !! x) <-> x ∈ take i names)
       /\ (forall j x v, j < i -> names !! j = Some x -> args0 !! j = Some v ->
             x ∉ drop (S j) (take i names) -> vars sc !! x = Some v).

(** A value of one of the two Go function types. *)
Definition is_func (v : Value) : bool :=
  match v with
  | VFunc _ | VClosure _ | VSpecial _ => true
  | _ => false
  end.

(** The two values have the same Go function type: built-in functions and
    closures share one, special forms have the other. *)
Definition same_func_type (x y : Value) : bool :=
  match x, y with
  | (VFunc _ | VClosure _), (VFunc _ | VClosure _) => true
  | VSpecial _, VSpecial _ => true
  | _, _ => false
  end.

(** [h'] has the scopes and closures of [h], and the rationals of [h]
    followed by new ones: nothing that existed was modified. *)
Definition extends (h h' : Heap) : Prop :=
  scopes h' = scopes h
  /\ closures h' = closures h
  /\ exists new, rats h' = rats h ++ new.

(** The heap while an accumulator of a call started in [h] is live: the
    heap of [h] with the accumulator as one more rational. *)
Definition accumulating (h g : Heap) : Prop :=
  scopes g = scopes h /\ closures g = closures h /\ exists acc, rats g = rats h ++ [acc].

(** * Properties *)

(** ** The arithmetic accumulators *)

Lemma push_rat_lookup_old q h a x :
  rats h !! a = Some x -> rats (push_rat q h) !! a = Some x.
Proof. intros H. cbn. by apply lookup_app_l_Some. Qed.

Lemma push_rat_lookup_new q h : rats (push_rat q h) !! length (rats h) = Some q.
Proof. cbn. by apply list_lookup_middle. Qed.

Lemma push_rat_store q q' h :
  set_rats (fun l => <[length (rats h) := q']> l) (push_rat q h) = push_rat q' h.
Proof.
  unfold push_rat, set_rats; cbn. f_equal.
  replace (length (rats h)) with (length (rats h) + 0) at 1 by lia.
  by rewrite insert_app_r.
Qed.

(** One step of an accumulator that lives at the end of the heap. *)
Lemma Rat_binop_acc f h acc a q :
  rats h !! a = Some q ->
  Rat_binop f (Some (length (rats h))) (Some (length (rats h))) (Some a) (push_rat acc h)
  = (Ret (Some (length (rats h))), push_rat (f acc q) h).
Proof.
  intros Ha. unfold Rat_binop, bind, Rat_load, Rat_store, ret.
  rewrite push_rat_lookup_new, (push_rat_lookup_old _ _ _ _ Ha), push_rat_lookup_new.
  by rewrite push_rat_store.
Qed.

Lemma Rat_Quo_acc h acc a q :
  rats h !! a = Some q -> q <> Q2Qc 0 ->
  Rat_Quo (Some (length (rats h))) (Some (length (rats h))) (Some a) (push_rat acc h)
  = (Ret (Some (length (rats h))), push_rat (acc / q)%Qc h).
Proof.
  intros Ha Hq. unfold Rat_Quo, bind, Rat_load, Rat_store, ret.
  rewrite push_rat_lookup_new, (push_rat_lookup_old _ _ _ _ Ha).
  destruct (Qc_eq_dec q (Q2Qc 0)) as [E|_]; [done|].
  by rewrite push_rat_lookup_new, push_rat_store.
Qed.

Lemma Rat_Quo_zero h acc a :
  rats h !! a = Some (Q2Qc 0) ->
  Rat_Quo (Some (length (rats h))) (Some (length (rats h))) (Some a) (push_rat acc h)
  = (Panic RatDivisionByZero, push_rat acc h).
Proof.
  intros Ha. unfold Rat_Quo, bind, Rat_load, throw.
  rewrite push_rat_lookup_new, (push_rat_lookup_old _ _ _ _ Ha).
  by destruct (Qc_eq_dec (Q2Qc 0) (Q2Qc 0)).
Qed.

(** [res = newRatZero().Set(arg)]: a fresh rational with the contents of
    [arg], handed to the rest of the loop. *)
Lemma newRatZero_Set {A} (k : option addr -> M A) h a q :
  rats h !! a = Some q ->
  (z <- newRatZero ;; res' <- Rat_Set z (Some a) ;; k res') h
  = k (Some (length (rats h))) (push_rat q h).
Proof.
  intros Ha. unfold bind, newRatZero, Rat_new, Rat_Set, bind, Rat_load, Rat_store, ret.
  rewrite (push_rat_lookup_old _ _ _ _ Ha), push_rat_lookup_new.
  by rewrite push_rat_store.
Qed.

Lemma plusFn_loop_fold h args qs : forall acc,
  Forall2 (rat_at h) args qs ->
  plusFn_loop args (Some (length (rats h))) (push_rat acc h)
  = (Ret (VRat (Some (length (rats h)))), push_rat (fold_left Qcplus qs acc) h).
Proof.
  intros acc H. revert acc.
  induction H as [|v q args qs (a & -> & Ha) _ IH]; intros acc; [done|].
  cbn [plusFn_loop fold_left]. unfold bind at 1.
  unfold Rat_Add. rewrite (Rat_binop_acc _ _ _ _ _ Ha). apply IH.
Qed.

Lemma mulFn_loop_fold h args qs : forall acc,
  Forall2 (rat_at h) args qs ->
  mulFn_loop args (Some (length (rats h))) (push_rat acc h)
  = (Ret (VRat (Some (length (rats h)))), push_rat (fold_left Qcmult qs acc) h).
Proof.
  intros acc H. revert acc.
  induction H as [|v q args qs (a & -> & Ha) _ IH]; intros acc; [done|].
  cbn [mulFn_loop fold_left]. unfold bind at 1.
  unfold Rat_Mul. rewrite (Rat_binop_acc _ _ _ _ _ Ha). apply IH.
Qed.

Lemma plusFn_loop_type_error h pre qs v post : forall acc,
  Forall2 (rat_at h) pre qs -> is_rat v = false ->
  plusFn_loop (pre ++ v :: post) (Some (length (rats h))) (push_rat acc h)
  = (Err (ErrorValue "cannot sum " v), push_rat (fold_left Qcplus qs acc) h).
Proof.
  intros acc H Hv. revert acc.
  induction H as [|w q pre qs (a & -> & Ha) _ IH]; intros acc.
  - by destruct v.
  - cbn [app plusFn_loop fold_left]. unfold bind at 1.
    unfold Rat_Add. rewrite (Rat_binop_acc _ _ _ _ _ Ha). apply IH.
Qed.

Lemma mulFn_loop_type_error h pre qs v post : forall acc,
  Forall2 (rat_at h) pre qs -> is_rat v = false ->
  mulFn_loop (pre ++ v :: post) (Some (length (rats h))) (push_rat acc h)
  = (Err (ErrorValue "cannot multiply " v), push_rat (fold_left Qcmult qs acc) h).
Proof.
  intros acc H Hv. revert acc.
  induction H as [|w q pre qs (a & -> & Ha) _ IH]; intros acc.
  - by destruct v.
  - cbn [app mulFn_loop fold_left]. unfold bind at 1.
    unfold Rat_Mul. rewrite (Rat_binop_acc _ _ _ _ _ Ha). apply IH.
Qed.

Lemma minusFn_loop_fold h n args qs : forall i acc,
  i <> 0 ->
  Forall2 (rat_at h) args qs ->
  minusFn_loop n i args (Some (length (rats h))) (push_rat acc h)
  = (Ret (VRat (Some (length (rats h)))), push_rat (fold_left Qcminus qs acc) h).
Proof.
  intros i acc Hi H. revert i acc Hi.
  induction H as [|v q args qs (a & -> & Ha) _ IH]; intros i acc Hi; [done|].
  cbn [minusFn_loop fold_left].
  rewrite (bool_decide_eq_false_2 (i = 0)) by done. cbn [andb].
  unfold bind at 1. unfold Rat_Sub. rewrite (Rat_binop_acc _ _ _ _ _ Ha).
  by apply IH.
Qed.

(** Two or more rationals: [args[0] - args[1] - ...], in a fresh rational. *)
Lemma minusFn_fold h v q w args qs :
  rat_at h v q -> Forall2 (rat_at h) (w :: args) qs ->
  minusFn (v :: w :: args) h
  = (Ret (VRat (Some (length (rats h)))), push_rat (fold_left Qcminus qs q) h).
Proof.
  intros (a & -> & Ha) H. unfold minusFn.
  assert (1 < length (VRat (Some a) :: w :: args)) as Hn by (cbn; lia).
  revert H Hn. generalize (w :: args). intros rest H Hn.
  rewrite bool_decide_eq_false_2 by (cbn; lia).
  cbn [minusFn_loop]. rewrite bool_decide_eq_true_2 by done.
  rewrite (bool_decide_eq_true_2 (1 < _)) by done. cbn [andb].
  rewrite (newRatZero_Set _ _ _ _ Ha).
  by apply minusFn_loop_fold.
Qed.

Lemma minusFn_no_arguments h :
  minusFn [] h
  = (Err (ErrorString ("function " +:+ dq +:+ "-" +:+ dq +:+ " takes one or more arguments")), h).
Proof. reflexivity. Qed.

Lemma divFn_loop_fold h n args qs : forall i acc,
  i <> 0 ->
  Forall2 (rat_at h) args qs ->
  Forall (fun q => q <> Q2Qc 0) qs ->
  divFn_loop n i args (Some (length (rats h))) (push_rat acc h)
  = (Ret (VRat (Some (length (rats h)))), push_rat (fold_left Qcdiv qs acc) h).
Proof.
  intros i acc Hi H. revert i acc Hi.
  induction H as [|v q args qs (a & -> & Ha) _ IH]; intros i acc Hi Hnz; [done|].
  apply Forall_cons in Hnz as [Hq Hnz].
  cbn [divFn_loop fold_left].
  rewrite (bool_decide_eq_false_2 (i = 0)) by done. cbn [andb].
  unfold bind at 1. rewrite (Rat_Quo_acc _ _ _ _ Ha Hq).
  by apply IH.
Qed.

Lemma divFn_loop_zero h n args qs : forall i acc,
  i <> 0 ->
  Forall2 (rat_at h) args qs ->
  Q2Qc 0 ∈ qs ->
  fst (divFn_loop n i args (Some (length (rats h))) (push_rat acc h))
  = Panic RatDivisionByZero.
Proof.
  intros i acc Hi H. revert i acc Hi.
  induction H as [|v q args qs (a & -> & Ha) _ IH]; intros i acc Hi Hz.
  - by apply elem_of_nil in Hz.
  - cbn [divFn_loop].
    rewrite (bool_decide_eq_false_2 (i = 0)) by done. cbn [andb].
    unfold bind at 1.
    destruct (Qc_eq_dec q (Q2Qc 0)) as [->|Hq].
    + by rewrite (Rat_Quo_zero _ _ _ Ha).
    + rewrite (Rat_Quo_acc _ _ _ _ Ha Hq). apply IH; [done|].
      apply elem_of_cons in Hz as [Hz|Hz]; [congruence|done].
Qed.

(** The first operand of [/] or [-] with two or more operands. *)
Lemma divFn_first h v q rest :
  rat_at h v q -> rest <> [] ->
  divFn (v :: rest) h
  = divFn_loop (S (length rest)) 1 rest (Some (length (rats h))) (push_rat q h).
Proof.
  intros (a & -> & Ha) Hrest. unfold divFn.
  assert (1 < length (VRat (Some a) :: rest)) as Hn by (destruct rest; [done|cbn; lia]).
  rewrite bool_decide_eq_false_2 by lia.
  cbn [divFn_loop]. rewrite bool_decide_eq_true_2 by done.
  rewrite (bool_decide_eq_true_2 (1 < _)) by done. cbn [andb].
  by rewrite (newRatZero_Set _ _ _ _ Ha).
Qed.

(** Two or more rationals with non-zero divisors: [args[0] / args[1] / ...]. *)
Lemma divFn_fold h v q w args qs :
  rat_at h v q -> Forall2 (rat_at h) (w :: args) qs ->
  Forall (fun q => q <> Q2Qc 0) qs ->
  divFn (v :: w :: args) h
  = (Ret (VRat (Some (length (rats h)))), push_rat (fold_left Qcdiv qs q) h).
Proof.
  intros Hv H Hnz. rewrite (divFn_first _ _ _ _ Hv) by done. by apply divFn_loop_fold.
Qed.

Lemma plusFn_fold h args qs :
  Forall2 (rat_at h) args qs ->
  plusFn args h
  = (Ret (VRat (Some (length (rats h)))), push_rat (fold_left Qcplus qs (Q2Qc 0)) h).
Proof. intros H. unfold plusFn, bind, newRatZero, Rat_new. by apply plusFn_loop_fold. Qed.

Lemma mulFn_fold h args qs :
  Forall2 (rat_at h) args qs ->
  mulFn args h
  = (Ret (VRat (Some (length (rats h)))), push_rat (fold_left Qcmult qs (Q2Qc 1)) h).
Proof. intros H. unfold mulFn, bind, newRatOne, Rat_new. by apply mulFn_loop_fold. Qed.

(** C8: [+] of no argument returns (a fresh rational holding) 0 and [*]
    of no argument returns 1; on a list of rationals [+] returns their sum
    and [*] their product, accumulated left to right from the identity;
    and when an argument is not a rational (the ones before it being
    rationals) the call fails with the type error that names it. *)
Theorem plusFn_mulFn_fold (h : Heap) :
  plusFn [] h = (Ret (VRat (Some (length (rats h)))), push_rat (Q2Qc 0) h)
  /\ mulFn [] h = (Ret (VRat (Some (length (rats h)))), push_rat (Q2Qc 1) h)
  /\ (forall args qs, Forall2 (rat_at h) args qs ->
        plusFn args h
        = (Ret (VRat (Some (length (rats h)))), push_rat (fold_left Qcplus qs (Q2Qc 0)) h)
        /\ mulFn args h
           = (Ret (VRat (Some (length (rats h)))), push_rat (fold_left Qcmult qs (Q2Qc 1)) h))
  /\ (forall pre qs v post, Forall2 (rat_at h) pre qs -> is_rat v = false ->
        fst (plusFn (pre ++ v :: post) h) = Err (ErrorValue "cannot sum " v)
        /\ fst (mulFn (pre ++ v :: post) h) = Err (ErrorValue "cannot multiply " v)).
Proof.
  split; [done|]. split; [done|]. split.
  - intros args qs H. split; [by apply plusFn_fold|by apply mulFn_fold].
  - intros pre qs v post H Hv. split.
    + unfold plusFn, bind, newRatZero, Rat_new.
      by rewrite (plusFn_loop_type_error _ _ _ _ _ _ H Hv).
    + unfold mulFn, bind, newRatOne, Rat_new.
      by rewrite (mulFn_loop_type_error _ _ _ _ _ _ H Hv).
Qed.

Lemma plusFn_mulFn_fold_witness :
  let h := mkHeap [] [qc 3; qc 4] [] in
  let args := [VRat (Some 0); VRat (Some 1); VRat (Some 1)] in
  plusFn args h = (Ret (VRat (Some 2)), push_rat (fold_left Qcplus [qc 3; qc 4; qc 4] (Q2Qc 0)) h)
  /\ mulFn args h = (Ret (VRat (Some 2)), push_rat (fold_left Qcmult [qc 3; qc 4; qc 4] (Q2Qc 1)) h)
  /\ fst (plusFn (args ++ VString "x" :: args) h) = Err (ErrorValue "cannot sum " (VString "x")).
Proof.
  intros h args.
  assert (Forall2 (rat_at h) args [qc 3; qc 4; qc 4]) as H.
  { repeat constructor; eexists; split; reflexivity. }
  destruct (plusFn_mulFn_fold h) as (_ & _ & Hfold & Herr).
  destruct (Hfold args _ H) as [Hp Hm].
  destruct (Herr args _ (VString "x") args H eq_refl) as [He _].
  exact (conj Hp (conj Hm He)).
Defined.

(** [(+ 3 4 4)] through the evaluator. *)
Example eval_plus :
  let r := Scope_Eval 5 0 (call "+" [Num 0; Num 1; Num 1]) (root_heap [qc 3; qc 4]) in
  fst r = Ret (VRat (Some 2)) /\ rat_of (snd r) (VRat (Some 2)) = Some (qc 11).
Proof. vm_compute. split; reflexivity. Qed.

(** C3: [-] applied to exactly one rational does not return its negation:
    the accumulator [res] is still the nil pointer when [res.Sub(res, arg)]
    runs, and the call panics. *)
Theorem minusFn_one_argument_panics (p : option addr) (h : Heap) :
  minusFn [VRat p] h = (Panic NilPointerDereference, h).
Proof. reflexivity. Qed.

(** C2, as the code has it: when every argument of [/] is a rational, there
    are two or more of them and some divisor is zero, the call panics with
    the division-by-zero panic of [Quo]; it returns no error value. *)
Theorem divFn_zero_divisor_panics (h : Heap) (args : list Value) (qs : list Qc) :
  2 <= length args ->
  Forall2 (rat_at h) args qs ->
  (exists i, 1 <= i /\ qs !! i = Some (Q2Qc 0)) ->
  fst (divFn args h) = Panic RatDivisionByZero.
Proof.
  intros Hlen H (i & Hi & Hz).
  destruct H as [|v q rest qs' Hv Hrest]; [cbn in Hlen; lia|].
  destruct i as [|i]; [lia|]. cbn in Hz.
  rewrite (divFn_first _ _ _ _ Hv) by (destruct rest; [cbn in Hlen; lia|done]).
  apply (divFn_loop_zero _ _ _ _ _ _ ltac:(done) Hrest).
  by apply list_elem_of_lookup_2 in Hz.
Qed.

Lemma divFn_zero_divisor_panics_witness :
  fst (divFn [VRat (Some 0); VRat (Some 1); VRat (Some 2)] (mkHeap [] [qc 6; qc 3; qc 0] []))
  = Panic RatDivisionByZero.
Proof.
  apply (divFn_zero_divisor_panics _ _ [qc 6; qc 3; qc 0]).
  - cbn. lia.
  - repeat constructor; eexists; split; reflexivity.
  - exists 2. split; [lia|reflexivity].
Defined.

(** C2, as the claim states it, fails on [(/ 1 0)]: the outcome is a panic
    and not an error value. *)
Lemma divFn_one_by_zero_no_error :
  let r := divFn [VRat (Some 0); VRat (Some 1)] (mkHeap [] [qc 1; qc 0] []) in
  fst r = Panic RatDivisionByZero /\ forall e, fst r <> Err e.
Proof. split; [reflexivity|]. intros e. vm_compute. discriminate. Qed.

(** ** Equality of rationals *)

Lemma Qc_round_trip (qa qb : Qc) :
  qb <> Q2Qc 0 -> (Q2Qc 1 * (qa / qb) * qb)%Qc = qa.
Proof.
  intros Hb. rewrite Qcmult_1_l, Qcmult_comm. by apply Qcmult_div_r.
Qed.

(** C4: for rationals [a] and [b] with [b] not zero, the product [(a/b)*b]
    holds exactly the contents of [a], and yet [==] answers false: it
    compares the two pointers, and the product is a fresh rational. *)
Theorem eqFn_round_trip_is_false (h : Heap) (a b : addr) (qa qb : Qc) :
  rats h !! a = Some qa ->
  rats h !! b = Some qb ->
  qb <> Q2Qc 0 ->
  exists product h',
    round_trip (VRat (Some a)) (VRat (Some b)) h = (Ret (product, VBool false), h')
    /\ rat_of h' product = Some qa.
Proof.
  intros Ha Hb Hnz.
  exists (VRat (Some (S (length (rats h))))).
  eexists. unfold round_trip. unfold bind at 1.
  rewrite (divFn_fold h (VRat (Some a)) qa (VRat (Some b)) [] [qb]); cycle 1.
  { by exists a. }
  { repeat constructor. by exists b. }
  { by repeat constructor. }
  cbn [fold_left]. unfold bind at 1.
  set (h1 := push_rat (qa / qb)%Qc h).
  rewrite (mulFn_fold h1 [VRat (Some (length (rats h))); VRat (Some b)] [(qa / qb)%Qc; qb]); cycle 1.
  { repeat constructor.
    - eexists. split; [done|]. apply push_rat_lookup_new.
    - eexists. split; [done|]. by apply push_rat_lookup_old. } cbn [fold_left]. rewrite (Qc_round_trip _ _ Hnz).
  replace (length (rats h1)) with (S (length (rats h))) by (cbn; rewrite length_app; cbn; lia).
  unfold bind, eqFn, interface_eq, bind, ret.
  apply lookup_lt_Some in Ha.
  rewrite bool_decide_eq_false_2 by (intros [=]; lia).
  split; [reflexivity|].
  cbn [rat_of].
  replace (S (length (rats h))) with (length (rats h1)) by (cbn; rewrite length_app; cbn; lia).
  apply push_rat_lookup_new.
Qed.

Lemma eqFn_round_trip_is_false_witness :
  exists product h',
    round_trip (VRat (Some 0)) (VRat (Some 1)) (mkHeap [] [qc 1; qc 2] [])
    = (Ret (product, VBool false), h')
    /\ rat_of h' product = Some (qc 1).
Proof.
  apply (eqFn_round_trip_is_false _ 0 1 (qc 1) (qc 2)).
  - reflexivity.
  - reflexivity.
  - intros H. apply (f_equal this) in H. vm_compute in H. discriminate.
Defined.

(** The same through the evaluator: comparing [a] with the product of
    [(/ a b)] and [b], for [a = 1] and [b = 1], is false, while comparing a
    literal with itself is true. *)
Example eval_round_trip :
  fst (Scope_Eval 4 0 (call "==" [Num 0; call "*" [call "/" [Num 0; Num 1]; Num 1]])
         (root_heap [qc 1; qc 1])) = Ret (VBool false)
  /\ fst (Scope_Eval 4 0 (call "==" [Num 0; Num 0]) (root_heap [qc 1; qc 1]))
     = Ret (VBool true).
Proof. split; vm_compute; reflexivity. Qed.

(** ** Control forms *)

Lemma bind_Ret_inv {A B} (m : M A) (k : A -> M B) h b h' :
  bind m k h = (Ret b, h') ->
  exists a h1, m h = (Ret a, h1) /\ k a h1 = (Ret b, h').
Proof.
  unfold bind. destruct (m h) as [[a| | |] h1]; intros H; try discriminate.
  by exists a, h1.
Qed.

Lemma bind_Ret {A B} (m : M A) (k : A -> M B) h a h1 :
  m h = (Ret a, h1) -> bind m k h = k a h1.
Proof. unfold bind. by intros ->. Qed.

Lemma is_false_spec v : is_false v = true <-> v = VBool false.
Proof. destruct v as [|[]| | | | |]; cbn; split; congruence. Qed.

Lemma is_false_not v : v <> VBool false -> is_false v = false.
Proof.
  intros H. destruct (is_false v) eqn:E; [|done]. by apply is_false_spec in E.
Qed.

Lemma default_last_cons {A} (d x : A) (l : list A) :
  default d (last (x :: l)) = default x (last l).
Proof.
  revert d x. induction l as [|y l IH]; intros d x; [done|].
  change (last (x :: y :: l)) with (last (y :: l)).
  by rewrite (IH d y), (IH x y).
Qed.

Section ControlForms.

Variable Eval : addr -> Node -> M Value.
Variable scope : addr.

Lemma andFn_loop_prefix pre rest h vs h1 : forall value,
  evals Eval scope pre h vs h1 ->
  Forall (fun v => v <> VBool false) vs ->
  andFn_loop Eval scope (pre ++ rest) value h
  = andFn_loop Eval scope rest (default value (last vs)) h1.
Proof.
  intros value H. revert value.
  induction H as [|node nodes h v h1 vs h2 Hv _ IH]; intros value Hnf; [done|].
  apply Forall_cons in Hnf as [Hv' Hnf].
  cbn [app andFn_loop]. rewrite (bind_Ret _ _ _ _ _ Hv), (is_false_not _ Hv').
  rewrite (IH v Hnf). by rewrite default_last_cons.
Qed.

Lemma andFn_nonempty args h :
  args <> [] -> andFn Eval scope args h = andFn_loop Eval scope args VNil h.
Proof.
  intros H. unfold andFn. rewrite bool_decide_eq_false_2; [done|].
  by destruct args.
Qed.

(** C5: [and] without operands is true; when the operands before [x]
    evaluate, in order, to values other than false and [x] evaluates to
    false, the form returns false in the heap that the evaluation of [x]
    left, whatever operands follow [x]: none of them is evaluated; and
    when no operand evaluates to false the form returns the value of
    the last one. *)
Theorem andFn_short_circuit :
  (forall h, andFn Eval scope [] h = (Ret (VBool true), h))
  /\ (forall pre x post h vs h1 h2,
        evals Eval scope pre h vs h1 ->
        Forall (fun v => v <> VBool false) vs ->
        Eval scope x h1 = (Ret (VBool false), h2) ->
        andFn Eval scope (pre ++ x :: post) h = (Ret (VBool false), h2))
  /\ (forall args h vs v h',
        evals Eval scope args h vs h' ->
        Forall (fun v => v <> VBool false) vs ->
        last vs = Some v ->
        andFn Eval scope args h = (Ret v, h')).
Proof.
  split; [done|]. split.
  - intros pre x post h vs h1 h2 Hpre Hnf Hx.
    rewrite andFn_nonempty by (by destruct pre).
    rewrite (andFn_loop_prefix _ _ _ _ _ _ Hpre Hnf).
    cbn [andFn_loop]. by rewrite (bind_Ret _ _ _ _ _ Hx).
  - intros args h vs v h' Hargs Hnf Hlast.
    rewrite andFn_nonempty.
    + rewrite <- (app_nil_r args), (andFn_loop_prefix _ _ _ _ _ _ Hargs Hnf).
      by rewrite Hlast.
    + intros ->. inversion Hargs; subst. discriminate.
Qed.

(** C6: [if] with fewer than two or more than three operands is an arity
    error; otherwise operand 0 is evaluated, and exactly when its value
    is the boolean false the form continues as the evaluation of
    operand 2, or returns false when there is none; for every other
    value it continues as the evaluation of operand 1.  The other branch
    does not take part in the result. *)
Theorem ifFn_branches :
  (forall args h,
      length args < 2 \/ 3 < length args ->
      ifFn Eval scope args h
      = (Err (ErrorString ("function " +:+ dq +:+ "if" +:+ dq +:+ " takes two or three arguments")), h))
  /\ (forall c t h h1,
        Eval scope c h = (Ret (VBool false), h1) ->
        ifFn Eval scope [c; t] h = (Ret (VBool false), h1))
  /\ (forall c t e h h1,
        Eval scope c h = (Ret (VBool false), h1) ->
        ifFn Eval scope [c; t; e] h = Eval scope e h1)
  /\ (forall c t rest h v h1,
        length rest <= 1 ->
        Eval scope c h = (Ret v, h1) ->
        v <> VBool false ->
        ifFn Eval scope (c :: t :: rest) h = Eval scope t h1).
Proof.
  repeat split.
  - intros args h Hlen. unfold ifFn.
    destruct Hlen as [Hlen|Hlen].
    + by rewrite (bool_decide_eq_true_2 (length args < 2)).
    + rewrite (bool_decide_eq_true_2 (3 < length args)) by done.
      by rewrite orb_true_r.
  - intros c t h h1 Hc. unfold ifFn. cbn [length].
    rewrite !bool_decide_eq_false_2 by lia. cbn [orb].
    by rewrite (bind_Ret _ _ _ _ _ Hc).
  - intros c t e h h1 Hc. unfold ifFn. cbn [length].
    rewrite !bool_decide_eq_false_2 by lia. cbn [orb].
    by rewrite (bind_Ret _ _ _ _ _ Hc).
  - intros c t rest h v h1 Hlen Hc Hv. unfold ifFn. cbn [length].
    rewrite !bool_decide_eq_false_2 by lia. cbn [orb].
    by rewrite (bind_Ret _ _ _ _ _ Hc), (is_false_not _ Hv).
Qed.

End ControlForms.

Lemma andFn_short_circuit_witness :
  let h := root_heap [qc 1] in
  andFn (Scope_Eval 3) 0 [Num 0; Symbol "false"; call "var" [Symbol "z"]] h
  = (Ret (VBool false), h)
  /\ andFn (Scope_Eval 3) 0 [Symbol "true"; Num 0] h = (Ret (VRat (Some 0)), h).
Proof.
  intros h.
  destruct (andFn_short_circuit (Scope_Eval 3) 0) as (_ & Hfalse & Hlast). split.
  - apply (Hfalse [Num 0] (Symbol "false") [call "var" [Symbol "z"]] h [VRat (Some 0)] h h).
    + eapply evals_cons; [reflexivity|constructor].
    + repeat constructor; discriminate.
    + reflexivity.
  - apply (Hlast [Symbol "true"; Num 0] h [VBool true; VRat (Some 0)] (VRat (Some 0)) h).
    + eapply evals_cons; [reflexivity|]. eapply evals_cons; [reflexivity|constructor].
    + repeat constructor; discriminate.
    + reflexivity.
Defined.

(** The operand after the false one would bind [z]; [z] stays unbound. *)
Example eval_and_short_circuit :
  let prog := call "do" [call "and" [Num 0; Symbol "false"; call "var" [Symbol "z"]]; Symbol "z"] in
  fst (Scope_Eval 5 0 prog (root_heap [qc 1])) = Err (UnboundSymbol "z").
Proof. vm_compute. reflexivity. Qed.

Lemma ifFn_branches_witness :
  let h := root_heap [qc 0; qc 1; qc 2] in
  ifFn (Scope_Eval 3) 0 [Symbol "false"; Num 1] h = (Ret (VBool false), h)
  /\ ifFn (Scope_Eval 3) 0 [Symbol "false"; Num 1; Num 2] h = (Ret (VRat (Some 2)), h)
  /\ ifFn (Scope_Eval 3) 0 [Num 0; Num 1; Num 2] h = (Ret (VRat (Some 1)), h)
  /\ ifFn (Scope_Eval 3) 0 [Symbol "nil"; Num 1] h = (Ret (VRat (Some 1)), h)
  /\ fst (ifFn (Scope_Eval 3) 0 [Num 0] h)
     = Err (ErrorString ("function " +:+ dq +:+ "if" +:+ dq +:+ " takes two or three arguments")).
Proof.
  intros h.
  destruct (ifFn_branches (Scope_Eval 3) 0) as (Harity & Hfalse2 & Hfalse3 & Htrue).
  split; [|split; [|split; [|split]]].
  - apply (Hfalse2 (Symbol "false") (Num 1) h h). reflexivity.
  - rewrite (Hfalse3 (Symbol "false") (Num 1) (Num 2) h h); reflexivity.
  - rewrite (Htrue (Num 0) (Num 1) [Num 2] h (VRat (Some 0)) h);
      first [reflexivity | cbn; lia | discriminate].
  - rewrite (Htrue (Symbol "nil") (Num 1) [] h VNil h);
      first [reflexivity | cbn; lia | discriminate].
  - rewrite (Harity [Num 0] h); [reflexivity|]. left. cbn. lia.
Defined.

(** ** Scopes *)

Lemma Scope_find_sound fuel scps name : forall s a,
  Scope_find fuel scps s name = Ret a ->
  exists sc, scps !! a = Some sc /\ is_Some (vars sc !! name).
Proof.
  induction fuel as [|fuel IH]; intros [s|] a H; cbn [Scope_find] in H; try discriminate.
  destruct (scps !! s) as [sc|] eqn:Hs; [|discriminate].
  destruct (vars sc !! name) as [v|] eqn:Hv.
  - injection H as <-. exists sc. by rewrite Hv.
  - by apply IH in H.
Qed.

(** Overwriting a name in a table that binds it does not change where the
    search for that name ends. *)
Lemma Scope_find_overwrite fuel scps name a sc v : forall s,
  scps !! a = Some sc ->
  is_Some (vars sc !! name) ->
  Scope_find fuel (<[a := mkScope (parent sc) (<[name := v]> (vars sc))]> scps) s name
  = Scope_find fuel scps s name.
Proof.
  intros s Ha [w Hw]. revert s.
  induction fuel as [|fuel IH]; intros [s|]; cbn [Scope_find]; try done.
  destruct (decide (s = a)) as [->|Hne].
  - rewrite list_lookup_insert_eq by (by eapply lookup_lt_Some).
    rewrite Ha. cbn [vars]. by rewrite lookup_insert_eq, Hw.
  - rewrite list_lookup_insert_ne by done.
    destruct (scps !! s) as [sc'|]; [|done].
    destruct (vars sc' !! name); [done|]. apply IH.
Qed.

Lemma Scope_Create_inv s name value h u h' :
  Scope_Create s name value h = (Ret u, h') ->
  exists sc, scopes h !! s = Some sc
    /\ vars sc !! name = None
    /\ h' = set_scopes (fun l => <[s := mkScope (parent sc) (<[name := value]> (vars sc))]> l) h.
Proof.
  unfold Scope_Create, bind, load_scope.
  destruct (scopes h !! s) as [sc|] eqn:Hs; [|discriminate].
  destruct (vars sc !! name) eqn:Hv; [discriminate|].
  intros [= _ <-]. by exists sc.
Qed.

Lemma Scope_Lookup_bound s name sc v h :
  scopes h !! s = Some sc ->
  vars sc !! name = Some v ->
  Scope_Lookup s name h = (Ret v, h).
Proof.
  intros Hs Hv. unfold Scope_Lookup, bind, find, load_scope.
  destruct (length (scopes h)) as [|n] eqn:Hlen.
  { apply lookup_lt_Some in Hs. lia. }
  cbn. by rewrite Hs, Hv, Hs, Hv.
Qed.

Lemma Scope_Lookup_Create s name value h u h' :
  Scope_Create s name value h = (Ret u, h') ->
  Scope_Lookup s name h' = (Ret value, h').
Proof.
  intros (sc & Hs & _ & ->)%Scope_Create_inv.
  eapply Scope_Lookup_bound.
  - cbn. apply list_lookup_insert_eq. by eapply lookup_lt_Some.
  - cbn. apply lookup_insert_eq.
Qed.

Lemma Scope_Lookup_Set s name value h u h' :
  Scope_Set s name value h = (Ret u, h') ->
  Scope_Lookup s name h' = (Ret value, h').
Proof.
  unfold Scope_Set. intros (a & h1 & Hfind & H)%bind_Ret_inv.
  apply bind_Ret_inv in H as (sc & h2 & Hload & H).
  unfold find in Hfind. injection Hfind as Hfind <-.
  unfold load_scope in Hload.
  destruct (scopes h !! a) as [sc'|] eqn:Ha; [|discriminate].
  injection Hload as -> <-. injection H as _ <-.
  destruct (Scope_find_sound _ _ _ _ _ Hfind) as (sc'' & Ha' & Hbound).
  rewrite Ha in Ha'. injection Ha' as <-.
  unfold Scope_Lookup, bind, find, load_scope. cbn [scopes set_scopes].
  rewrite length_insert, (Scope_find_overwrite _ _ _ _ _ _ _ Ha Hbound), Hfind.
  rewrite list_lookup_insert_eq by (by eapply lookup_lt_Some).
  cbn. by rewrite lookup_insert_eq.
Qed.

Section BindingForms.

Variable Eval : addr -> Node -> M Value.

(** C10: when [var] or [set] succeeds, its value is nil, whatever was
    bound or assigned; the bound value is what a lookup of the symbol
    from the same scope returns afterwards: nil for [var] with one
    operand, the value of the second operand otherwise. *)
Theorem varFn_setFn_return_nil (scope : addr) (args : list Node) (h h' : Heap) (v : Value) :
  (varFn Eval scope args h = (Ret v, h') ->
     v = VNil
     /\ exists name bound,
          ((args = [Symbol name] /\ bound = VNil)
           \/ exists init h1, args = [Symbol name; init]
                              /\ Eval scope init h = (Ret bound, h1))
          /\ Scope_Lookup scope name h' = (Ret bound, h'))
  /\ (setFn Eval scope args h = (Ret v, h') ->
        v = VNil
        /\ exists name source bound h1,
             args = [Symbol name; source]
             /\ Eval scope source h = (Ret bound, h1)
             /\ Scope_Lookup scope name h' = (Ret bound, h')).
Proof.
  split.
  - unfold varFn. intros H.
    destruct args as [|[name| |] [|init [|]]]; try discriminate.
    + cbn in H. apply bind_Ret_inv in H as (bound & h1 & [= <- <-] & H).
      apply bind_Ret_inv in H as (u & h2 & Hc & [= <- <-]).
      split; [done|]. exists name, VNil. split; [by left|].
      by eapply Scope_Lookup_Create.
    + cbn in H. apply bind_Ret_inv in H as (bound & h1 & He & H).
      apply bind_Ret_inv in H as (u & h2 & Hc & [= <- <-]).
      split; [done|]. exists name, bound. split; [right; by exists init, h1|].
      by eapply Scope_Lookup_Create.
  - unfold setFn. intros H.
    destruct args as [|[name| |] [|source [|]]]; try discriminate.
    apply bind_Ret_inv in H as (bound & h1 & He & H).
    apply bind_Ret_inv in H as (u & h2 & Hs & [= <- <-]).
    split; [done|]. exists name, source, bound, h1.
    split; [done|]. split; [done|]. by eapply Scope_Lookup_Set.
Qed.

End BindingForms.

Lemma varFn_setFn_return_nil_witness :
  let h := root_heap [qc 5; qc 6] in
  let h1 := snd (varFn (Scope_Eval 3) 0 [Symbol "x"; Num 0] h) in
  let h2 := snd (setFn (Scope_Eval 3) 0 [Symbol "x"; Num 1] h1) in
  (varFn (Scope_Eval 3) 0 [Symbol "x"; Num 0] h = (Ret VNil, h1)
   /\ Scope_Lookup 0 "x" h1 = (Ret (VRat (Some 0)), h1))
  /\ (setFn (Scope_Eval 3) 0 [Symbol "x"; Num 1] h1 = (Ret VNil, h2)
      /\ Scope_Lookup 0 "x" h2 = (Ret (VRat (Some 1)), h2)).
Proof.
  intros h h1 h2. split.
  - destruct (varFn_setFn_return_nil (Scope_Eval 3) 0 [Symbol "x"; Num 0] h h1 VNil)
      as [Hvar _].
    destruct (Hvar eq_refl) as (Hnil & name & bound & [[[=] _]|(init & g & [= <- <-] & He)] & Hl).
    injection He as <- _. split; [reflexivity|exact Hl].
  - destruct (varFn_setFn_return_nil (Scope_Eval 3) 0 [Symbol "x"; Num 1] h1 h2 VNil)
      as [_ Hset].
    destruct (Hset eq_refl) as (Hnil & name & source & bound & g & [= <- <-] & He & Hl).
    injection He as <- _. split; [reflexivity|exact Hl].
Defined.

(** [(var x 5)], [(set x 6)], then [x]: the forms are nil, [x] is 6. *)
Example eval_var_set :
  let h := root_heap [qc 5; qc 6] in
  let r1 := Scope_Eval 4 0 (call "var" [Symbol "x"; Num 0]) h in
  let r2 := Scope_Eval 4 0 (call "set" [Symbol "x"; Num 1]) (snd r1) in
  let r3 := Scope_Eval 4 0 (Symbol "x") (snd r2) in
  fst r1 = Ret VNil /\ fst r2 = Ret VNil /\ fst r3 = Ret (VRat (Some 1)).
Proof. vm_compute. repeat split. Qed.

(** ** Closures *)

(** What [funcFn] stores: the scope it was called in, the leading symbol
    as name (the empty name without one), the parameter list and the body. *)
Lemma funcFn_closure scope args h v h' :
  funcFn scope args h = (Ret v, h') ->
  exists name params body,
    (args = Symbol name :: List params :: body
     \/ (name = "" /\ args = List params :: body))
    /\ forallb is_symbol params = true
    /\ v = VClosure (length (closures h))
    /\ closures h' = closures h ++ [mkClosure scope name params body].
Proof.
  unfold funcFn. intros H.
  destruct (bool_decide (length args < 2)); [discriminate|].
  destruct args as [|first rest]; [discriminate|].
  destruct first as [name|params|lit].
  - destruct rest as [|[ |params| ] body]; try discriminate.
    cbn [lookup list_lookup] in H. cbn in H.
    destruct (forallb is_symbol params) eqn:Hsym; [|discriminate]. cbn [negb] in H.
    rewrite drop_0 in H.
    destruct (bool_decide (length body = 0)); [discriminate|].
    apply bind_Ret_inv in H as (c & h1 & [= <- <-] & H).
    apply bind_Ret_inv in H as (u & h2 & Hc & [= <- <-]).
    exists name, params, body. split; [by left|]. split; [done|]. split; [done|].
    destruct (bool_decide (name = "")); cbn [negb] in Hc.
    + by injection Hc as _ <-.
    + apply bind_Ret_inv in Hc as (s & h3 & Hs & Hc).
      unfold captured_scope, bind, load_closure in Hs.
      destruct (closures _ !! _); [|discriminate]. injection Hs as _ <-.
      by apply Scope_Create_inv in Hc as (sc & _ & _ & ->).
  - cbn in H.
    destruct (forallb is_symbol params) eqn:Hsym; [|discriminate]. cbn [negb] in H.
    rewrite drop_0 in H.
    destruct (bool_decide (length rest = 0)); [discriminate|].
    apply bind_Ret_inv in H as (c & h1 & [= <- <-] & H).
    apply bind_Ret_inv in H as (u & h2 & [= <- <-] & [= <- <-]).
    exists "", params, rest. by repeat split; [right|..].
  - cbn in H. discriminate.
Qed.

(** C7: a closure invoked with a number of arguments other than its
    number of parameters fails, in an unchanged heap, with an error whose
    message starts with [function], followed by the name as [%q] prints
    it, when the closure has a name, and with [anonymous function]
    otherwise, and goes on with "takes no arguments" for no parameter,
    "takes one argument" for one and "takes N arguments" for N
    parameters, N at least two. *)
Theorem fn_arity_mismatch (Eval : addr -> Node -> M Value)
    (c : addr) (cl : Closure) (args : list Value) (h : Heap) :
  closures h !! c = Some cl ->
  length args <> length (cl_params cl) ->
  let takes :=
    match length (cl_params cl) with
    | 0 => " takes no arguments"
    | 1 => " takes one argument"
    | S (S n) => " takes " +:+ pretty (S (S n)) +:+ " arguments"
    end in
  fn Eval c args h
  = (Err (if bool_decide (cl_name cl = "")
          then ErrorString ("anonymous function" +:+ takes)
          else ErrorQuoted "function " (cl_name cl) takes), h).
Proof.
  intros Hc Hlen takes. unfold fn, bind, load_closure. rewrite Hc.
  rewrite bool_decide_eq_false_2 by done. cbn [negb]. unfold raise. f_equal.
  unfold arity_error, takes, nameInfo, Errorf_s.
  by destruct (length (cl_params cl)) as [|[|n]]; destruct (bool_decide (cl_name cl = "")).
Qed.

Lemma fn_arity_mismatch_witness :
  let h := mkHeap [] [] [mkClosure 0 "add" [Symbol "a"; Symbol "b"] [Symbol "a"];
                         mkClosure 0 "" [Symbol "a"] [Symbol "a"];
                         mkClosure 0 "" [] [Symbol "nil"]] in
  fn (Scope_Eval 3) 0 [VNil] h = (Err (ErrorQuoted "function " "add" " takes 2 arguments"), h)
  /\ fn (Scope_Eval 3) 1 [] h = (Err (ErrorString "anonymous function takes one argument"), h)
  /\ fn (Scope_Eval 3) 2 [VNil] h = (Err (ErrorString "anonymous function takes no arguments"), h).
Proof.
  intros h. split; [|split].
  - apply (fn_arity_mismatch (Scope_Eval 3) 0 _ [VNil] h eq_refl). cbn. lia.
  - apply (fn_arity_mismatch (Scope_Eval 3) 1 _ [] h eq_refl). cbn. lia.
  - apply (fn_arity_mismatch (Scope_Eval 3) 2 _ [VNil] h eq_refl). cbn. lia.
Defined.

(** [(func (a b) (+ a b))] applied to 3 and 4 is 7; applied to 3 alone
    it fails, naming the anonymous function. *)
Example eval_func_arity :
  let f := call "func" [List [Symbol "a"; Symbol "b"]; call "+" [Symbol "a"; Symbol "b"]] in
  let r := Scope_Eval 6 0 (List [f; Num 0; Num 1]) (root_heap [qc 3; qc 4]) in
  rat_of (snd r) (VRat (Some 2)) = Some (qc 7)
  /\ fst r = Ret (VRat (Some 2))
  /\ fst (Scope_Eval 6 0 (List [f; Num 0]) (root_heap [qc 3; qc 4]))
     = Err (ErrorString "anonymous function takes 2 arguments").
Proof. vm_compute. repeat split. Qed.

Section ParameterBinding.

(** A closure [c] whose parameters are the symbols [names], entered with
    arguments [args0]: [n] is the scope branched for the invocation and
    [s0] the scope it was branched from. *)
Variable c : addr.
Variable cl : Closure.
Variable names : list string.
Variable args0 : list Value.
Variables n s0 : addr.
Hypothesis params_names : cl_params cl = map Symbol names.

Lemma binding_captured i g : binding c cl names args0 n s0 i g -> captured_scope c g = (Ret n, g).
Proof. intros [Hc _]. unfold captured_scope, bind, load_closure. by rewrite Hc. Qed.

Lemma binding_duplicate i g x v :
  binding c cl names args0 n s0 i g -> x ∈ take i names ->
  must_not_happen (Scope_Create n x v) g
  = (Panic (PanicError "must not happen: " (DuplicateBinding x)), g).
Proof.
  intros (_ & sc & Hn & _ & Hdom & _) Hx.
  apply Hdom in Hx as [w Hw].
  unfold must_not_happen, Scope_Create, bind, load_scope. by rewrite Hn, Hw.
Qed.

Lemma binding_fresh i g x v :
  binding c cl names args0 n s0 i g -> names !! i = Some x -> args0 !! i = Some v -> x ∉ take i names ->
  exists g', must_not_happen (Scope_Create n x v) g = (Ret tt, g') /\ binding c cl names args0 n s0 (S i) g'.
Proof.
  intros (Hc & sc & Hn & Hp & Hdom & Hval) Hi Hv Hx.
  assert (vars sc !! x = None) as Hnone.
  { destruct (vars sc !! x) eqn:E; [|done]. destruct Hx. apply Hdom. by rewrite E. }
  eexists. split.
  { unfold must_not_happen, Scope_Create, bind, load_scope. by rewrite Hn, Hnone. }
  split; [done|].
  exists (mkScope (parent sc) (<[x := v]> (vars sc))).
  rewrite (take_S_r _ _ _ Hi).
  split; [|split; [done|split]].
  - cbn. apply list_lookup_insert_eq. by eapply lookup_lt_Some.
  - intros y. cbn [vars]. rewrite elem_of_app, list_elem_of_singleton, <- Hdom.
    destruct (decide (x = y)) as [->|Hne].
    + rewrite lookup_insert_eq. split; [by right|by eexists].
    + rewrite lookup_insert_ne by done. split; [by left|]. by intros [?|?].
  - intros j y w Hj Hy Hw Hlater. cbn [vars].
    destruct (decide (j = i)) as [->|Hji].
    + rewrite Hi in Hy. rewrite Hv in Hw. injection Hy as <-. injection Hw as <-.
      apply lookup_insert_eq.
    + assert (j < i) as Hlt by lia.
      assert (length (take i names) = i) as Hlen.
      { rewrite length_take. apply lookup_lt_Some in Hi. lia. }
      rewrite drop_app_le in Hlater by lia.
      rewrite not_elem_of_app, list_elem_of_singleton in Hlater.
      destruct Hlater as [Hlater Hne].
      rewrite lookup_insert_ne by done. by eapply Hval.
Qed.

(** With a repeated name the loop panics at the second occurrence. *)
Lemma fn_bind_duplicate args : forall i g,
  binding c cl names args0 n s0 i g ->
  NoDup (take i names) ->
  ~ NoDup names ->
  drop i args0 = args ->
  length args0 = length names ->
  exists x, x ∈ names
    /\ fst (fn_bind c (cl_params cl) i args g)
       = Panic (PanicError "must not happen: " (DuplicateBinding x)).
Proof.
  induction args as [|arg args IH]; intros i g Hb Hnd Hdup Hdrop Hlen.
  - destruct Hdup.
    assert (length names <= i) as Hi.
    { apply (f_equal length) in Hdrop. rewrite length_drop in Hdrop. cbn in Hdrop. lia. }
    by rewrite take_ge in Hnd.
  - assert (args0 !! i = Some arg) as Harg.
    { rewrite <- (Nat.add_0_r i), <- lookup_drop, Hdrop. done. }
    destruct (names !! i) as [x|] eqn:Hx; cycle 1.
    { apply lookup_ge_None in Hx. apply lookup_lt_Some in Harg. lia. }
    assert (cl_params cl !! i = Some (Symbol x)) as Hparam.
    { by rewrite params_names, list_lookup_fmap, Hx. }
    cbn [fn_bind]. rewrite Hparam.
    rewrite (bind_Ret _ _ _ _ _ (binding_captured _ _ Hb)).
    destruct (decide (x ∈ take i names)) as [Hin|Hout].
    + exists x. split; [by eapply list_elem_of_lookup_2|].
      unfold bind. by rewrite (binding_duplicate _ _ _ arg Hb Hin).
    + destruct (binding_fresh _ _ _ _ Hb Hx Harg Hout) as (g' & Hstep & Hb').
      rewrite (bind_Ret _ _ _ _ _ Hstep).
      apply (IH (S i) g' Hb'); try done.
      * rewrite (take_S_r _ _ _ Hx). apply NoDup_app. split; [done|].
        split; [|apply NoDup_singleton].
        intros y Hy ->%list_elem_of_singleton. done.
      * rewrite (drop_S _ _ _ Harg) in Hdrop. by injection Hdrop.
Qed.

(** With distinct names the loop binds every parameter. *)
Lemma fn_bind_distinct args : forall i g,
  binding c cl names args0 n s0 i g ->
  NoDup names ->
  drop i args0 = args ->
  length args0 = length names ->
  exists g', fn_bind c (cl_params cl) i args g = (Ret tt, g')
    /\ binding c cl names args0 n s0 (length names) g'.
Proof.
  induction args as [|arg args IH]; intros i g Hb Hnd Hdrop Hlen.
  - exists g. split; [done|].
    assert (length names <= i) as Hi.
    { apply (f_equal length) in Hdrop. rewrite length_drop in Hdrop. cbn in Hdrop. lia. }
    destruct Hb as (Hc & sc & Hn & Hp & Hdom & Hval).
    split; [done|]. exists sc. rewrite firstn_all. rewrite take_ge in Hdom, Hval by done.
    repeat split; try done; try apply Hdom.
    intros j x v Hj. apply Hval. lia.
  - assert (args0 !! i = Some arg) as Harg.
    { rewrite <- (Nat.add_0_r i), <- lookup_drop, Hdrop. done. }
    destruct (names !! i) as [x|] eqn:Hx; cycle 1.
    { apply lookup_ge_None in Hx. apply lookup_lt_Some in Harg. lia. }
    assert (cl_params cl !! i = Some (Symbol x)) as Hparam.
    { by rewrite params_names, list_lookup_fmap, Hx. }
    cbn [fn_bind]. rewrite Hparam.
    rewrite (bind_Ret _ _ _ _ _ (binding_captured _ _ Hb)).
    assert (x ∉ take i names) as Hout.
    { intros Hin. rewrite <- (take_drop i names) in Hnd.
      apply NoDup_app in Hnd as (_ & Hdisj & _). apply (Hdisj x Hin).
      eapply list_elem_of_lookup_2. rewrite lookup_drop, Nat.add_0_r. done. }
    destruct (binding_fresh _ _ _ _ Hb Hx Harg Hout) as (g' & Hstep & Hb').
    rewrite (bind_Ret _ _ _ _ _ Hstep).
    apply (IH (S i) g' Hb'); try done.
    rewrite (drop_S _ _ _ Harg) in Hdrop. by injection Hdrop.
Qed.

End ParameterBinding.

Lemma load_closure_ok c cl h :
  closures h !! c = Some cl -> load_closure c h = (Ret cl, h).
Proof. unfold load_closure. by intros ->. Qed.

Lemma captured_scope_ok c cl h :
  closures h !! c = Some cl -> captured_scope c h = (Ret (cl_scope cl), h).
Proof. intros H. unfold captured_scope. by rewrite (bind_Ret _ _ _ _ _ (load_closure_ok _ _ _ H)). Qed.

Lemma Scope_Branch_ok s h :
  is_Some (scopes h !! s) ->
  Scope_Branch s h
  = (Ret (length (scopes h)), set_scopes (fun l => l ++ [mkScope (Some s) ∅]) h).
Proof. intros [sc H]. unfold Scope_Branch, bind, load_scope. by rewrite H. Qed.

Lemma assign_captured_scope_ok c cl s h :
  closures h !! c = Some cl ->
  assign_captured_scope c s h
  = (Ret tt, set_closures (fun l => <[c := mkClosure s (cl_name cl) (cl_params cl) (cl_body cl)]> l) h).
Proof.
  intros H. unfold assign_captured_scope.
  by rewrite (bind_Ret _ _ _ _ _ (load_closure_ok _ _ _ H)).
Qed.

(** The prologue of an invocation with the right number of arguments:
    branch the captured scope, assign the branch to the captured variable,
    then run the binding loop and the body. *)
Lemma fn_enter Eval c cl names args h :
  closures h !! c = Some cl ->
  length args = length (cl_params cl) ->
  is_Some (scopes h !! cl_scope cl) ->
  exists g,
    fn Eval c args h
    = (fn_bind c (cl_params cl) 0 args ;;; fn_body Eval c (cl_body cl) VNil) g
    /\ binding c cl names args (length (scopes h)) (cl_scope cl) 0 g.
Proof.
  intros Hc Hlen Hs.
  eexists. split.
  - unfold fn. rewrite (bind_Ret _ _ _ _ _ (load_closure_ok _ _ _ Hc)).
    rewrite bool_decide_eq_true_2 by done. cbn [negb].
    rewrite (bind_Ret _ _ _ _ _ (captured_scope_ok _ _ _ Hc)).
    rewrite (bind_Ret _ _ _ _ _ (Scope_Branch_ok _ _ Hs)).
    rewrite (bind_Ret _ _ _ _ _
               (assign_captured_scope_ok c cl _ (set_scopes _ h) Hc)).
    reflexivity.
  - destruct Hs as [sc0 Hs]. split.
    + cbn. apply list_lookup_insert_eq. by eapply lookup_lt_Some.
    + exists (mkScope (Some (cl_scope cl)) ∅). cbn [scopes set_closures set_scopes].
      split; [by apply list_lookup_middle|]. split; [done|]. split.
      * intros x. cbn. rewrite lookup_empty, elem_of_nil. split; [by intros [? ?]|done].
      * intros j x v Hj. lia.
Qed.

(** C9: a closure whose parameter names are not pairwise distinct, invoked
    with as many arguments as it has parameters, returns no error value:
    creating the repeated name fails and the binding loop panics with
    "must not happen". *)
Theorem fn_duplicate_parameter_panics (Eval : addr -> Node -> M Value)
    (c : addr) (cl : Closure) (names : list string) (args : list Value) (h : Heap) :
  closures h !! c = Some cl ->
  cl_params cl = map Symbol names ->
  ~ NoDup names ->
  length args = length names ->
  is_Some (scopes h !! cl_scope cl) ->
  exists x, x ∈ names
    /\ fst (fn Eval c args h) = Panic (PanicError "must not happen: " (DuplicateBinding x)).
Proof.
  intros Hc Hp Hdup Hlen Hs.
  destruct (fn_enter Eval c cl names args h Hc) as (g & -> & Hb); [|done|].
  { by rewrite Hp, length_map. }
  destruct (fn_bind_duplicate c cl names args _ _ Hp args 0 g Hb) as (x & Hx & Hpanic);
    try done.
  { rewrite take_0. constructor. }
  exists x. split; [done|]. unfold bind.
  destruct (fn_bind c (cl_params cl) 0 args g) as [[| | |] g']; cbn in Hpanic |- *;
    congruence.
Qed.

Lemma fn_duplicate_parameter_panics_witness :
  let h := set_closures (fun _ => [mkClosure 0 "f" [Symbol "a"; Symbol "a"] [Symbol "a"]])
                        (root_heap []) in
  exists x, x ∈ ["a"; "a"]
    /\ fst (fn (Scope_Eval 3) 0 [VNil; VBool true] h)
       = Panic (PanicError "must not happen: " (DuplicateBinding x)).
Proof.
  intros h.
  apply (fn_duplicate_parameter_panics (Scope_Eval 3) 0 _ ["a"; "a"] [VNil; VBool true] h eq_refl).
  - reflexivity.
  - intros H. apply NoDup_cons in H as [H _]. apply H. left.
  - reflexivity.
  - eexists. reflexivity.
Defined.

(** [(func f (a a) a)] called with two arguments. *)
Example eval_duplicate_parameter :
  let prog := call "do" [call "func" [Symbol "f"; List [Symbol "a"; Symbol "a"]; Symbol "a"];
                         call "f" [Num 0; Num 0]] in
  fst (Scope_Eval 6 0 prog (root_heap [qc 1]))
  = Panic (PanicError "must not happen: " (DuplicateBinding "a")).
Proof. vm_compute. reflexivity. Qed.

Lemma NoDup_not_later (names : list string) j x :
  NoDup names -> names !! j = Some x -> x ∉ drop (S j) names.
Proof.
  intros Hnd Hj [k Hk]%list_elem_of_lookup_1.
  rewrite lookup_drop in Hk.
  pose proof (NoDup_lookup _ _ _ _ Hnd Hj Hk). lia.
Qed.

(** What an invocation with distinct parameter names does before the body
    runs: the new scope, at the end of the heap, has the scope that the
    captured variable held as parent and binds each parameter to its
    argument; and the captured variable now holds the new scope.  The next
    invocation therefore branches from this invocation's scope. *)
Lemma fn_reassigns_captured_scope (Eval : addr -> Node -> M Value)
    (c : addr) (cl : Closure) (names : list string) (args : list Value) (h : Heap) :
  closures h !! c = Some cl ->
  cl_params cl = map Symbol names ->
  NoDup names ->
  length args = length names ->
  is_Some (scopes h !! cl_scope cl) ->
  exists g sc,
    fn Eval c args h = fn_body Eval c (cl_body cl) VNil g
    /\ closures g !! c
       = Some (mkClosure (length (scopes h)) (cl_name cl) (cl_params cl) (cl_body cl))
    /\ scopes g !! length (scopes h) = Some sc
    /\ parent sc = Some (cl_scope cl)
    /\ (forall j x v, names !! j = Some x -> args !! j = Some v -> vars sc !! x = Some v).
Proof.
  intros Hc Hp Hnd Hlen Hs.
  destruct (fn_enter Eval c cl names args h Hc) as (g0 & -> & Hb); [|done|].
  { by rewrite Hp, length_map. }
  destruct (fn_bind_distinct c cl names args _ _ Hp args 0 g0 Hb) as (g & Hbind & Hb');
    try done.
  destruct Hb' as (Hc' & sc & Hn & Hpar & _ & Hval).
  exists g, sc. rewrite (bind_Ret _ _ _ _ _ Hbind).
  repeat split; try done.
  intros j x v Hj Hv. apply (Hval j x v); try done.
  - by eapply lookup_lt_Some.
  - rewrite firstn_all. by apply NoDup_not_later.
Qed.

(** C1: scope 1 is the block in which [f] is defined; the first call of
    [f] binds [y] in its own scope 2; the second call runs in scope 3,
    whose parent is scope 2 and not scope 1, and finds that [y].  A first
    call with the same argument, which branches from the defining scope,
    finds no [y]. *)
Theorem closure_second_call_sees_first_scope :
  let f := call "func" [Symbol "f"; List [Symbol "c"];
                        call "if" [Symbol "c"; call "var" [Symbol "y"; Num 0]; Symbol "y"]] in
  let twice := call "do" [f; call "f" [Symbol "true"]; call "f" [Symbol "false"]] in
  let once := call "do" [f; call "f" [Symbol "false"]] in
  let r := Scope_Eval 7 0 twice (root_heap [qc 1]) in
  fst r = Ret (VRat (Some 0))
  /\ map parent (scopes (snd r)) = [None; Some 0; Some 1; Some 2]
  /\ cl_scope <$> closures (snd r) !! 0 = Some 3
  /\ fst (Scope_Eval 7 0 once (root_heap [qc 1])) = Err (UnboundSymbol "y").
Proof. vm_compute. repeat split. Qed.

(** * Further properties of the built-ins and forms *)

(** ** Sequencing forms *)

Section SequencingForms.

Variable Eval : addr -> Node -> M Value.
Variable scope : addr.

Lemma orFn_loop_prefix pre rest h vs h1 : forall value,
  evals Eval scope pre h vs h1 ->
  Forall (fun v => v = VBool false) vs ->
  orFn_loop Eval scope (pre ++ rest) value h
  = orFn_loop Eval scope rest (default value (last vs)) h1.
Proof.
  intros value H. revert value.
  induction H as [|node nodes h v h1 vs h2 Hv _ IH]; intros value Hf; [done|].
  apply Forall_cons in Hf as [-> Hf].
  cbn [app orFn_loop]. rewrite (bind_Ret _ _ _ _ _ Hv). cbn [is_false negb].
  rewrite (IH _ Hf). by rewrite default_last_cons.
Qed.

Lemma orFn_nonempty args h :
  args <> [] -> orFn Eval scope args h = orFn_loop Eval scope args VNil h.
Proof.
  intros H. unfold orFn. rewrite bool_decide_eq_false_2; [done|].
  by destruct args.
Qed.

(** X1: [or] without operands is false; when the operands before [x]
    evaluate, in order, to false and [x] evaluates to another value, the
    form returns that value in the heap that the evaluation of [x] left,
    whatever operands follow; and when every operand evaluates to false
    the form returns false. *)
Theorem orFn_short_circuit :
  (forall h, orFn Eval scope [] h = (Ret (VBool false), h))
  /\ (forall pre x post h vs h1 v h2,
        evals Eval scope pre h vs h1 ->
        Forall (fun v => v = VBool false) vs ->
        Eval scope x h1 = (Ret v, h2) ->
        v <> VBool false ->
        orFn Eval scope (pre ++ x :: post) h = (Ret v, h2))
  /\ (forall args h vs h',
        evals Eval scope args h vs h' ->
        Forall (fun v => v = VBool false) vs ->
        orFn Eval scope args h = (Ret (VBool false), h')).
Proof.
  split; [done|]. split.
  - intros pre x post h vs h1 v h2 Hpre Hf Hx Hv.
    rewrite orFn_nonempty by (by destruct pre).
    rewrite (orFn_loop_prefix _ _ _ _ _ _ Hpre Hf).
    cbn [orFn_loop]. by rewrite (bind_Ret _ _ _ _ _ Hx), (is_false_not _ Hv).
  - intros args h vs h' Hargs Hf.
    destruct args as [|node nodes].
    { by inversion Hargs; subst. }
    rewrite orFn_nonempty by done.
    rewrite <- (app_nil_r (node :: nodes)), (orFn_loop_prefix _ _ _ _ _ _ Hargs Hf).
    cbn [orFn_loop]. unfold ret. f_equal. f_equal.
    inversion Hargs as [|? ? ? v ? vs' ? ? Hrest]; subst.
    apply Forall_cons in Hf as [-> Hf].
    rewrite default_last_cons.
    destruct (last vs') as [w|] eqn:Hl; [|done].
    cbn. apply last_Some_elem_of in Hl.
    by apply (proj1 (Forall_forall _ _) Hf) in Hl.
Qed.

Lemma doFn_loop_prefix pre rest s h vs h1 : forall value,
  evals Eval s pre h vs h1 ->
  doFn_loop Eval s (pre ++ rest) value h
  = doFn_loop Eval s rest (default value (last vs)) h1.
Proof.
  intros value H. revert value.
  induction H as [|node nodes h v h1 vs h2 Hv _ IH]; intros value; [done|].
  cbn [app doFn_loop]. rewrite (bind_Ret _ _ _ _ _ Hv).
  rewrite IH. by rewrite default_last_cons.
Qed.

(** X2: [do] evaluates its operands in a new scope, empty and with the
    current scope as parent, added at the end of the heap; it returns the
    value of the last operand, and nil when there is none. *)
Theorem doFn_sequence (args : list Node) (h h' : Heap) (vs : list Value) :
  is_Some (scopes h !! scope) ->
  evals Eval (length (scopes h)) args
    (set_scopes (fun l => l ++ [mkScope (Some scope) ∅]) h) vs h' ->
  doFn Eval scope args h = (Ret (default VNil (last vs)), h').
Proof.
  intros Hs Hargs. unfold doFn.
  rewrite (bind_Ret _ _ _ _ _ (Scope_Branch_ok _ _ Hs)).
  rewrite <- (app_nil_r args). by rewrite (doFn_loop_prefix _ _ _ _ _ _ _ Hargs).
Qed.

(** X3: an error in an operand ends the form with that error, in the heap
    the failing evaluation left; the operands after it are not evaluated.
    For [and] the operands before it evaluated to values other than
    false, for [or] to false, for [do] to any values; for [if] the failing
    operand is the condition. *)
Theorem operand_error_ends_form (pre : list Node) (x : Node) (post : list Node)
    (h h1 h2 : Heap) (vs : list Value) (e : error) :
  (evals Eval scope pre h vs h1 ->
   Forall (fun v => v <> VBool false) vs ->
   Eval scope x h1 = (Err e, h2) ->
   andFn Eval scope (pre ++ x :: post) h = (Err e, h2))
  /\ (evals Eval scope pre h vs h1 ->
      Forall (fun v => v = VBool false) vs ->
      Eval scope x h1 = (Err e, h2) ->
      orFn Eval scope (pre ++ x :: post) h = (Err e, h2))
  /\ (is_Some (scopes h !! scope) ->
      evals Eval (length (scopes h)) pre
        (set_scopes (fun l => l ++ [mkScope (Some scope) ∅]) h) vs h1 ->
      Eval (length (scopes h)) x h1 = (Err e, h2) ->
      doFn Eval scope (pre ++ x :: post) h = (Err e, h2))
  /\ (1 <= length post <= 2 ->
      Eval scope x h = (Err e, h2) ->
      ifFn Eval scope (x :: post) h = (Err e, h2)).
Proof.
  split; [|split; [|split]].
  - intros Hpre Hnf Hx.
    rewrite andFn_nonempty by (by destruct pre).
    rewrite (andFn_loop_prefix _ _ _ _ _ _ _ _ Hpre Hnf).
    cbn [andFn_loop]. unfold bind. by rewrite Hx.
  - intros Hpre Hf Hx.
    rewrite orFn_nonempty by (by destruct pre).
    rewrite (orFn_loop_prefix _ _ _ _ _ _ Hpre Hf).
    cbn [orFn_loop]. unfold bind. by rewrite Hx.
  - intros Hs Hpre Hx. unfold doFn.
    rewrite (bind_Ret _ _ _ _ _ (Scope_Branch_ok _ _ Hs)).
    rewrite (doFn_loop_prefix _ _ _ _ _ _ _ Hpre).
    cbn [doFn_loop]. unfold bind. by rewrite Hx.
  - intros Hlen Hx. unfold ifFn. cbn [length].
    rewrite !bool_decide_eq_false_2 by lia. cbn [orb].
    unfold bind. by rewrite Hx.
Qed.

End SequencingForms.

Lemma orFn_short_circuit_witness :
  let h := root_heap [qc 1] in
  orFn (Scope_Eval 3) 0 [Symbol "false"; Num 0; call "var" [Symbol "z"]] h
  = (Ret (VRat (Some 0)), h)
  /\ orFn (Scope_Eval 3) 0 [Symbol "false"; Symbol "false"] h = (Ret (VBool false), h).
Proof.
  intros h.
  destruct (orFn_short_circuit (Scope_Eval 3) 0) as (_ & Hfirst & Hnone). split.
  - apply (Hfirst [Symbol "false"] (Num 0) [call "var" [Symbol "z"]] h [VBool false] h
             (VRat (Some 0)) h).
    + eapply evals_cons; [reflexivity|constructor].
    + by repeat constructor.
    + reflexivity.
    + discriminate.
  - apply (Hnone [Symbol "false"; Symbol "false"] h [VBool false; VBool false] h).
    + eapply evals_cons; [reflexivity|]. eapply evals_cons; [reflexivity|constructor].
    + by repeat constructor.
Defined.

Lemma doFn_sequence_witness :
  let h := root_heap [qc 1] in
  let h1 := set_scopes (fun l => l ++ [mkScope (Some 0) ∅]) h in
  doFn (Scope_Eval 3) 0 [Symbol "nil"; Num 0] h = (Ret (VRat (Some 0)), h1)
  /\ doFn (Scope_Eval 3) 0 [] h = (Ret VNil, h1).
Proof.
  intros h h1. split.
  - apply (doFn_sequence (Scope_Eval 3) 0 [Symbol "nil"; Num 0] h h1 [VNil; VRat (Some 0)]).
    + eexists. reflexivity.
    + eapply evals_cons; [reflexivity|]. eapply evals_cons; [reflexivity|constructor].
  - apply (doFn_sequence (Scope_Eval 3) 0 [] h h1 []).
    + eexists. reflexivity.
    + constructor.
Defined.

Lemma operand_error_ends_form_witness :
  let h := root_heap [qc 1] in
  let h1 := set_scopes (fun l => l ++ [mkScope (Some 0) ∅]) h in
  let bad := Symbol "missing" in
  let later := call "var" [Symbol "z"] in
  andFn (Scope_Eval 3) 0 ([Num 0] ++ bad :: [later]) h = (Err (UnboundSymbol "missing"), h)
  /\ orFn (Scope_Eval 3) 0 ([Symbol "false"] ++ bad :: [later]) h
     = (Err (UnboundSymbol "missing"), h)
  /\ doFn (Scope_Eval 3) 0 ([Num 0] ++ bad :: [later]) h = (Err (UnboundSymbol "missing"), h1)
  /\ ifFn (Scope_Eval 3) 0 (bad :: [later]) h = (Err (UnboundSymbol "missing"), h).
Proof.
  intros h h1 bad later. split; [|split; [|split]].
  - apply (proj1 (operand_error_ends_form (Scope_Eval 3) 0 [Num 0] bad [later] h h h
                    [VRat (Some 0)] (UnboundSymbol "missing"))).
    + eapply evals_cons; [reflexivity|constructor].
    + repeat constructor; discriminate.
    + reflexivity.
  - apply (proj1 (proj2 (operand_error_ends_form (Scope_Eval 3) 0 [Symbol "false"] bad [later]
                           h h h [VBool false] (UnboundSymbol "missing")))).
    + eapply evals_cons; [reflexivity|constructor].
    + by repeat constructor.
    + reflexivity.
  - apply (proj1 (proj2 (proj2 (operand_error_ends_form (Scope_Eval 3) 0 [Num 0] bad [later]
                                  h h1 h1 [VRat (Some 0)] (UnboundSymbol "missing"))))).
    + eexists. reflexivity.
    + eapply evals_cons; [reflexivity|constructor].
    + reflexivity.
  - apply (proj2 (proj2 (proj2 (operand_error_ends_form (Scope_Eval 3) 0 [] bad [later]
                                  h h h [] (UnboundSymbol "missing"))))).
    + cbn. lia.
    + reflexivity.
Defined.

(** ** Equality and user errors *)

Lemma interface_eq_func x y h :
  same_func_type x y = true -> interface_eq x y h = (Panic UncomparableType, h).
Proof. by destruct x, y. Qed.

Lemma interface_eq_data x y h :
  same_func_type x y = false ->
  exists b, interface_eq x y h = (Ret b, h) /\ (b = true <-> x = y).
Proof.
  intros H. destruct x, y; try discriminate; cbn;
    try (exists false; split; [done|]; split; congruence).
  - by exists true.
  - eexists. split; [done|]. rewrite bool_decide_eq_true. split; congruence.
  - eexists. split; [done|]. rewrite bool_decide_eq_true. split; congruence.
  - eexists. split; [done|]. rewrite bool_decide_eq_true. split; congruence.
Qed.

(** X4: [==] on two values that are not both functions of one Go type
    returns a boolean, in an unchanged heap, which is true exactly when
    the two values are the same: the same nil, boolean, string or
    rational pointer.  In particular it is reflexive and symmetric there,
    and two rationals are equal only as pointers. *)
Theorem eqFn_is_identity (x y : Value) (h : Heap) :
  same_func_type x y = false ->
  exists b, eqFn [x; y] h = (Ret (VBool b), h) /\ (b = true <-> x = y).
Proof.
  intros H. destruct (interface_eq_data x y h H) as (b & Hb & Hiff).
  exists b. split; [|done]. unfold eqFn. by rewrite (bind_Ret _ _ _ _ _ Hb).
Qed.

Lemma eqFn_is_identity_witness :
  exists b, eqFn [VString "a"; VRat (Some 0)] (root_heap [qc 1])
            = (Ret (VBool b), root_heap [qc 1])
    /\ (b = true <-> VString "a" = VRat (Some 0)).
Proof. apply (eqFn_is_identity (VString "a") (VRat (Some 0))). reflexivity. Defined.

(** X5: [==] and [!=] on two functions of one Go type (built-in functions
    and closures, or special forms) panic, in an unchanged heap; this
    includes a function compared with itself. *)
Theorem eqFn_neFn_functions_panic (x y : Value) (h : Heap) :
  same_func_type x y = true ->
  eqFn [x; y] h = (Panic UncomparableType, h)
  /\ neFn [x; y] h = (Panic UncomparableType, h).
Proof.
  intros H. unfold eqFn, neFn, bind. by rewrite (interface_eq_func x y h H).
Qed.

Lemma eqFn_neFn_functions_panic_witness :
  eqFn [VClosure 0; VClosure 0] (root_heap []) = (Panic UncomparableType, root_heap [])
  /\ neFn [VClosure 0; VClosure 0] (root_heap []) = (Panic UncomparableType, root_heap []).
Proof. apply (eqFn_neFn_functions_panic (VClosure 0) (VClosure 0)). reflexivity. Defined.

(** X6: [!=] is the negation of [==] on every argument list: when [==]
    returns the boolean [b], [!=] returns its negation in the same heap,
    and when [==] panics so does [!=]; with a number of arguments other
    than two both fail, each with its own message. *)
Theorem neFn_negates_eqFn (args : list Value) (h : Heap) :
  (forall b h', eqFn args h = (Ret (VBool b), h') -> neFn args h = (Ret (VBool (negb b)), h'))
  /\ (forall p h', eqFn args h = (Panic p, h') -> neFn args h = (Panic p, h'))
  /\ (length args <> 2 ->
      eqFn args h = (Err (ErrorString "== expects two values"), h)
      /\ neFn args h = (Err (ErrorString "!= expects two values"), h)).
Proof.
  split; [|split].
  - intros b h' H. destruct args as [|x [|y [|]]]; try discriminate.
    unfold eqFn, neFn, bind in *.
    destruct (interface_eq x y h) as [[c| | |] g]; try discriminate.
    by injection H as <- <-.
  - intros p h' H. destruct args as [|x [|y [|]]]; try discriminate.
    unfold eqFn, neFn, bind in *.
    by destruct (interface_eq x y h) as [[c| | |] g]; try discriminate.
  - intros H. by destruct args as [|x [|y [|]]].
Qed.

Lemma neFn_negates_eqFn_witness :
  neFn [VBool true; VBool true] (root_heap []) = (Ret (VBool (negb true)), root_heap [])
  /\ neFn [VFunc BPlus; VClosure 0] (root_heap []) = (Panic UncomparableType, root_heap [])
  /\ neFn [VNil] (root_heap []) = (Err (ErrorString "!= expects two values"), root_heap []).
Proof.
  split; [|split].
  - apply (proj1 (neFn_negates_eqFn [VBool true; VBool true] (root_heap []))). reflexivity.
  - apply (proj1 (proj2 (neFn_negates_eqFn [VFunc BPlus; VClosure 0] (root_heap [])))).
    reflexivity.
  - apply (proj2 (proj2 (neFn_negates_eqFn [VNil] (root_heap [])))). cbn. lia.
Defined.

(** X7: [error] never returns a value and never changes the heap: with
    exactly one string argument it fails with that string as message, with
    any other argument list it fails with a fixed message. *)
Theorem errorFn_always_fails (args : list Value) (h : Heap) :
  exists msg, errorFn args h = (Err (ErrorString msg), h)
    /\ (forall s, args = [VString s] -> msg = s)
    /\ ((forall s, args <> [VString s]) ->
        msg = "error function takes a single string argument").
Proof.
  destruct args as [|[| |s| | | |] [|]];
    try (eexists; split; [reflexivity|]; split; [intros ? [=]|done]).
  exists s. split; [done|]. split; [by intros ? [= ->]|].
  intros H. by destruct (H s).
Qed.

Lemma errorFn_always_fails_witness :
  exists msg, errorFn [VString "boom"] (root_heap []) = (Err (ErrorString msg), root_heap [])
    /\ msg = "boom".
Proof.
  destruct (errorFn_always_fails [VString "boom"] (root_heap [])) as (msg & H & Hs & _).
  exists msg. split; [exact H|]. by apply Hs.
Defined.

(** ** Subtraction and division *)

Lemma minusFn_first h v q rest :
  rat_at h v q -> rest <> [] ->
  minusFn (v :: rest) h
  = minusFn_loop (S (length rest)) 1 rest (Some (length (rats h))) (push_rat q h).
Proof.
  intros (a & -> & Ha) Hrest. unfold minusFn.
  assert (1 < length (VRat (Some a) :: rest)) as Hn by (destruct rest; [done|cbn; lia]).
  rewrite bool_decide_eq_false_2 by lia.
  cbn [minusFn_loop]. rewrite bool_decide_eq_true_2 by done.
  rewrite (bool_decide_eq_true_2 (1 < _)) by done. cbn [andb].
  by rewrite (newRatZero_Set _ _ _ _ Ha).
Qed.

(** X8: [/] with fewer than two arguments fails with its arity error in an
    unchanged heap; on two or more rationals whose divisors are all
    non-zero it returns a fresh rational holding
    [args[0] / args[1] / ...], divided left to right. *)
Theorem divFn_quotient (h : Heap) :
  (forall args, length args < 2 ->
     divFn args h
     = (Err (ErrorString ("function " +:+ dq +:+ "/" +:+ dq +:+ " takes two or more arguments")), h))
  /\ (forall v q w args qs,
        rat_at h v q ->
        Forall2 (rat_at h) (w :: args) qs ->
        Forall (fun d => d <> Q2Qc 0) qs ->
        divFn (v :: w :: args) h
        = (Ret (VRat (Some (length (rats h)))), push_rat (fold_left Qcdiv qs q) h)).
Proof.
  split.
  - intros args Hlen. unfold divFn. by rewrite bool_decide_eq_true_2.
  - intros v q w args qs Hv Hargs Hnz. by apply divFn_fold.
Qed.

Lemma divFn_quotient_witness :
  let h := mkHeap [] [qc 12; qc 2; qc 3] [] in
  divFn [VRat (Some 0); VRat (Some 1); VRat (Some 2)] h
  = (Ret (VRat (Some 3)), push_rat (fold_left Qcdiv [qc 2; qc 3] (qc 12)) h)
  /\ divFn [VRat (Some 0)] h
     = (Err (ErrorString ("function " +:+ dq +:+ "/" +:+ dq +:+ " takes two or more arguments")), h).
Proof.
  intros h. destruct (divFn_quotient h) as [Harity Hfold]. split.
  - apply (Hfold (VRat (Some 0)) (qc 12) (VRat (Some 1)) [VRat (Some 2)] [qc 2; qc 3]).
    + eexists. split; reflexivity.
    + repeat constructor; eexists; split; reflexivity.
    + repeat constructor; intros H; apply (f_equal this) in H; vm_compute in H; discriminate.
  - apply Harity. cbn. lia.
Defined.

(** X9: [-] without arguments fails with its arity error in an unchanged
    heap; on two or more rationals it returns a fresh rational holding
    [args[0] - args[1] - ...], subtracted left to right. *)
Theorem minusFn_difference (h : Heap) :
  minusFn [] h
  = (Err (ErrorString ("function " +:+ dq +:+ "-" +:+ dq +:+ " takes one or more arguments")), h)
  /\ (forall v q w args qs,
        rat_at h v q ->
        Forall2 (rat_at h) (w :: args) qs ->
        minusFn (v :: w :: args) h
        = (Ret (VRat (Some (length (rats h)))), push_rat (fold_left Qcminus qs q) h)).
Proof.
  split; [done|]. intros v q w args qs Hv Hargs. by apply minusFn_fold.
Qed.

Lemma minusFn_difference_witness :
  let h := mkHeap [] [qc 12; qc 2; qc 3] [] in
  minusFn [VRat (Some 0); VRat (Some 1); VRat (Some 2)] h
  = (Ret (VRat (Some 3)), push_rat (fold_left Qcminus [qc 2; qc 3] (qc 12)) h).
Proof.
  intros h. destruct (minusFn_difference h) as [_ Hfold].
  apply (Hfold (VRat (Some 0)) (qc 12) (VRat (Some 1)) [VRat (Some 2)] [qc 2; qc 3]).
  - eexists. split; reflexivity.
  - repeat constructor; eexists; split; reflexivity.
Defined.

Lemma minusFn_loop_type_error h n pre qs v post : forall i acc,
  i <> 0 ->
  Forall2 (rat_at h) pre qs -> is_rat v = false ->
  minusFn_loop n i (pre ++ v :: post) (Some (length (rats h))) (push_rat acc h)
  = (Err (ErrorValue "cannot subtract " v), push_rat (fold_left Qcminus qs acc) h).
Proof.
  intros i acc Hi H Hv. revert i acc Hi.
  induction H as [|w q pre qs (a & -> & Ha) _ IH]; intros i acc Hi.
  - by destruct v.
  - cbn [app minusFn_loop fold_left].
    rewrite (bool_decide_eq_false_2 (i = 0)) by done. cbn [andb].
    unfold bind at 1. unfold Rat_Sub. rewrite (Rat_binop_acc _ _ _ _ _ Ha). by apply IH.
Qed.

Lemma divFn_loop_type_error h n pre qs v post : forall i acc,
  i <> 0 ->
  Forall2 (rat_at h) pre qs -> Forall (fun d => d <> Q2Qc 0) qs -> is_rat v = false ->
  divFn_loop n i (pre ++ v :: post) (Some (length (rats h))) (push_rat acc h)
  = (Err (ErrorValue "cannot divide with " v), push_rat (fold_left Qcdiv qs acc) h).
Proof.
  intros i acc Hi H Hnz Hv. revert i acc Hi Hnz.
  induction H as [|w q pre qs (a & -> & Ha) _ IH]; intros i acc Hi Hnz.
  - by destruct v.
  - apply Forall_cons in Hnz as [Hq Hnz].
    cbn [app divFn_loop fold_left].
    rewrite (bool_decide_eq_false_2 (i = 0)) by done. cbn [andb].
    unfold bind at 1. rewrite (Rat_Quo_acc _ _ _ _ Ha Hq). by apply IH.
Qed.

(** X10: when an argument of [-] is not a rational, the ones before it
    being rationals, the call fails with the error that names it; the same
    holds for [/] given at least two arguments and no zero among the
    divisors before it.  A single argument that is not a rational is thus an
    error of [-], not a panic. *)
Theorem minusFn_divFn_type_error (h : Heap) (pre : list Value) (qs : list Qc)
    (v : Value) (post : list Value) :
  Forall2 (rat_at h) pre qs ->
  is_rat v = false ->
  fst (minusFn (pre ++ v :: post) h) = Err (ErrorValue "cannot subtract " v)
  /\ (2 <= length (pre ++ v :: post) ->
      Forall (fun d => d <> Q2Qc 0) (tail qs) ->
      fst (divFn (pre ++ v :: post) h) = Err (ErrorValue "cannot divide with " v)).
Proof.
  intros H Hv. destruct H as [|w q pre qs Hw Hpre].
  - split.
    + unfold minusFn. rewrite bool_decide_eq_false_2 by done. by destruct v.
    + intros Hlen _. unfold divFn. rewrite bool_decide_eq_false_2 by lia. by destruct v.
  - cbn [app tail]. split.
    + rewrite (minusFn_first _ _ _ _ Hw) by (by destruct pre).
      by rewrite (minusFn_loop_type_error _ _ _ _ _ _ _ _ ltac:(done) Hpre Hv).
    + intros _ Hnz. rewrite (divFn_first _ _ _ _ Hw) by (by destruct pre).
      by rewrite (divFn_loop_type_error _ _ _ _ _ _ _ _ ltac:(done) Hpre Hnz Hv).
Qed.

Lemma minusFn_divFn_type_error_witness :
  let h := mkHeap [] [qc 12; qc 2] [] in
  fst (minusFn ([VRat (Some 0); VRat (Some 1)] ++ VString "x" :: [VNil]) h)
  = Err (ErrorValue "cannot subtract " (VString "x"))
  /\ fst (divFn ([VRat (Some 0); VRat (Some 1)] ++ VString "x" :: [VNil]) h)
     = Err (ErrorValue "cannot divide with " (VString "x"))
  /\ fst (minusFn ([] ++ VBool true :: []) h) = Err (ErrorValue "cannot subtract " (VBool true)).
Proof.
  intros h.
  destruct (minusFn_divFn_type_error h [VRat (Some 0); VRat (Some 1)] [qc 12; qc 2]
              (VString "x") [VNil]) as [Hm Hd].
  { repeat constructor; eexists; split; reflexivity. }
  { reflexivity. }
  split; [exact Hm|]. split.
  - apply Hd.
    + cbn. lia.
    + repeat constructor; intros H; apply (f_equal this) in H; vm_compute in H; discriminate.
  - apply (minusFn_divFn_type_error h [] [] (VBool true) []); [constructor|reflexivity].
Defined.

(** ** What the built-ins leave alone *)

Lemma extends_refl h : extends h h.
Proof. repeat split. exists []. by rewrite app_nil_r. Qed.

Lemma accumulating_extends h g : accumulating h g -> extends h g.
Proof. intros (Hs & Hc & acc & Hr). repeat split; try done. by exists [acc]. Qed.

Lemma accumulating_push h q : accumulating h (push_rat q h).
Proof. repeat split. by exists q. Qed.

(** A property of the final heap passes through a bind when it holds
    where the first computation stops and after every continuation. *)
Lemma bind_final {A B} (P : Heap -> Prop) (m : M A) (k : A -> M B) h :
  P (snd (m h)) ->
  (forall a h1, m h = (Ret a, h1) -> P h1 -> P (snd (k a h1))) ->
  P (snd (bind m k h)).
Proof.
  unfold bind. destruct (m h) as [[a| | |] h1]; cbn; intros H Hk; try done.
  by apply Hk.
Qed.

Lemma Rat_load_final p g : snd (Rat_load p g) = g.
Proof. unfold Rat_load. destruct p as [a|]; [|done]. by destruct (rats g !! a). Qed.

Lemma Rat_load_inv p g q g' : Rat_load p g = (Ret q, g') -> g' = g.
Proof. intros H. by rewrite <- (Rat_load_final p g), H. Qed.

Lemma Rat_store_accumulating h g q :
  accumulating h g -> accumulating h (snd (Rat_store (Some (length (rats h))) q g)).
Proof.
  intros (Hs & Hc & acc & Hr). unfold Rat_store. cbv beta iota.
  rewrite Hr. rewrite list_lookup_middle by done. cbn.
  repeat split; try done. exists q. cbn [rats set_rats]. rewrite Hr.
  replace (length (rats h)) with (length (rats h) + 0) at 1 by lia.
  by rewrite insert_app_r.
Qed.

Lemma Rat_binop_accumulating f h g arg :
  accumulating h g ->
  accumulating h (snd (Rat_binop f (Some (length (rats h))) (Some (length (rats h))) arg g)).
Proof.
  intros Hg. unfold Rat_binop.
  apply bind_final; [by rewrite Rat_load_final|].
  intros qx ? ->%Rat_load_inv _.
  apply bind_final; [by rewrite Rat_load_final|].
  intros qy ? ->%Rat_load_inv _.
  apply bind_final; [by apply Rat_store_accumulating|].
  by intros [] g' _ Hg'.
Qed.

Lemma Rat_Quo_accumulating h g arg :
  accumulating h g ->
  accumulating h (snd (Rat_Quo (Some (length (rats h))) (Some (length (rats h))) arg g)).
Proof.
  intros Hg. unfold Rat_Quo.
  apply bind_final; [by rewrite Rat_load_final|].
  intros qx ? ->%Rat_load_inv _.
  apply bind_final; [by rewrite Rat_load_final|].
  intros qy ? ->%Rat_load_inv _.
  destruct (Qc_eq_dec qy (Q2Qc 0)); [done|].
  apply bind_final; [by apply Rat_store_accumulating|].
  by intros [] g' _ Hg'.
Qed.

Lemma Rat_Set_accumulating h g arg :
  accumulating h g ->
  accumulating h (snd (Rat_Set (Some (length (rats h))) arg g)).
Proof.
  intros Hg. unfold Rat_Set.
  apply bind_final; [by rewrite Rat_load_final|].
  intros qx ? ->%Rat_load_inv _.
  apply bind_final; [by apply Rat_store_accumulating|].
  by intros [] g' _ Hg'.
Qed.

Lemma binop_result {A} (m : M (option addr)) (k : M A) (P : Heap -> Prop) g :
  P (snd (m g)) ->
  (forall g', P g' -> P (snd (k g'))) ->
  P (snd ((_ <- m ;; k) g)).
Proof. intros Hm Hk. apply bind_final; [done|]. intros _ g' _. apply Hk. Qed.

Lemma plusFn_loop_accumulating h args : forall g,
  accumulating h g ->
  accumulating h (snd (plusFn_loop args (Some (length (rats h))) g)).
Proof.
  induction args as [|v args IH]; intros g Hg; [done|].
  destruct v; try done. cbn [plusFn_loop].
  apply binop_result; [by apply Rat_binop_accumulating|done].
Qed.

Lemma mulFn_loop_accumulating h args : forall g,
  accumulating h g ->
  accumulating h (snd (mulFn_loop args (Some (length (rats h))) g)).
Proof.
  induction args as [|v args IH]; intros g Hg; [done|].
  destruct v; try done. cbn [mulFn_loop].
  apply binop_result; [by apply Rat_binop_accumulating|done].
Qed.

Lemma minusFn_loop_accumulating h n args : forall i g,
  i <> 0 ->
  accumulating h g ->
  accumulating h (snd (minusFn_loop n i args (Some (length (rats h))) g)).
Proof.
  induction args as [|v args IH]; intros i g Hi Hg; [done|].
  destruct v; try done. cbn [minusFn_loop].
  rewrite (bool_decide_eq_false_2 (i = 0)) by done. cbn [andb].
  apply binop_result; [by apply Rat_binop_accumulating|]. intros g' Hg'. by apply IH.
Qed.

Lemma divFn_loop_accumulating h n args : forall i g,
  i <> 0 ->
  accumulating h g ->
  accumulating h (snd (divFn_loop n i args (Some (length (rats h))) g)).
Proof.
  induction args as [|v args IH]; intros i g Hi Hg; [done|].
  destruct v; try done. cbn [divFn_loop].
  rewrite (bool_decide_eq_false_2 (i = 0)) by done. cbn [andb].
  apply binop_result; [by apply Rat_Quo_accumulating|]. intros g' Hg'. by apply IH.
Qed.

(** The first iteration of [-] and [/] when there are two or more
    arguments: [res = newRatZero().Set(arg)], then the rest of the loop. *)
Lemma first_operand_accumulating h p (k : option addr -> M Value) :
  (forall g, accumulating h g -> accumulating h (snd (k (Some (length (rats h))) g))) ->
  extends h (snd ((z <- newRatZero ;; res' <- Rat_Set z p ;; k res') h)).
Proof.
  intros Hk. apply accumulating_extends.
  apply (bind_final (accumulating h)); [apply accumulating_push|].
  intros z g [= <- <-] Hg.
  apply (bind_final (accumulating h)); [by apply Rat_Set_accumulating|].
  intros res' g' Hset Hg'.
  assert (res' = Some (length (rats h))) as ->; [|by apply Hk].
  unfold Rat_Set, bind in Hset.
  destruct (Rat_load p (push_rat (Q2Qc 0) h)) as [[q| | |] g1]; try discriminate.
  destruct (Rat_store (Some (length (rats h))) q g1) as [[[]| | |] g2]; try discriminate.
  by injection Hset as <- _.
Qed.

(** X11: no built-in function modifies what is in the heap, whatever its
    arguments and whether it returns, fails or panics: the scopes and the
    closures are the same afterwards, and the rationals are the ones
    before, unchanged and at their addresses, possibly followed by new
    ones. *)
Theorem call_builtin_extends (f : builtin) (args : list Value) (h : Heap) :
  extends h (snd (call_builtin f args h)).
Proof.
  destruct f; cbn [call_builtin].
  - destruct (errorFn_always_fails args h) as (msg & -> & _). apply extends_refl.
  - destruct args as [|x [|y [|]]]; try apply extends_refl.
    unfold eqFn, bind. destruct x, y; apply extends_refl.
  - destruct args as [|x [|y [|]]]; try apply extends_refl.
    unfold neFn, bind. destruct x, y; apply extends_refl.
  - apply accumulating_extends. unfold plusFn.
    apply (bind_final (accumulating h)); [apply accumulating_push|].
    intros res g [= <- <-] Hg. by apply plusFn_loop_accumulating.
  - unfold minusFn. destruct args as [|v rest]; [apply extends_refl|].
    rewrite bool_decide_eq_false_2 by done.
    destruct v; try apply extends_refl. cbn [minusFn_loop].
    rewrite bool_decide_eq_true_2 by done. cbn [andb].
    destruct (bool_decide (1 < length (VRat p :: rest))).
    + apply first_operand_accumulating. intros g Hg. by apply minusFn_loop_accumulating.
    + unfold bind, Rat_Sub, Rat_binop, bind. cbn. apply extends_refl.
  - apply accumulating_extends. unfold mulFn.
    apply (bind_final (accumulating h)); [apply accumulating_push|].
    intros res g [= <- <-] Hg. by apply mulFn_loop_accumulating.
  - unfold divFn. destruct (bool_decide (length args < 2)) eqn:Hlen; [apply extends_refl|].
    apply bool_decide_eq_false in Hlen.
    destruct args as [|v rest]; [apply extends_refl|].
    destruct v; try apply extends_refl. cbn [divFn_loop].
    rewrite bool_decide_eq_true_2 by done.
    rewrite (bool_decide_eq_true_2 (1 < _)) by lia. cbn [andb].
    apply first_operand_accumulating. intros g Hg. by apply divFn_loop_accumulating.
Qed.

(** ** Order of the arguments of sums and products *)

Lemma fold_left_Qcplus_perm (qs qs' : list Qc) :
  qs ≡ₚ qs' -> forall acc, fold_left Qcplus qs acc = fold_left Qcplus qs' acc.
Proof.
  induction 1 as [|x l l' _ IH|x y l|l l' l'' _ IH1 _ IH2]; intros acc; cbn.
  - done.
  - apply IH.
  - f_equal. ring.
  - by rewrite IH1.
Qed.

Lemma fold_left_Qcmult_perm (qs qs' : list Qc) :
  qs ≡ₚ qs' -> forall acc, fold_left Qcmult qs acc = fold_left Qcmult qs' acc.
Proof.
  induction 1 as [|x l l' _ IH|x y l|l l' l'' _ IH1 _ IH2]; intros acc; cbn.
  - done.
  - apply IH.
  - f_equal. ring.
  - by rewrite IH1.
Qed.

Lemma rat_at_perm h (args args' : list Value) :
  args ≡ₚ args' ->
  forall qs, Forall2 (rat_at h) args qs ->
  exists qs', Forall2 (rat_at h) args' qs' /\ qs ≡ₚ qs'.
Proof.
  induction 1 as [|x l l' _ IH|x y l|l l' l'' _ IH1 _ IH2]; intros qs Hqs.
  - inversion Hqs; subst. by exists [].
  - inversion Hqs as [|? q ? qs0 Hx Hl]; subst.
    destruct (IH _ Hl) as (qs' & H' & Hp).
    exists (q :: qs'). split; [by constructor|by constructor].
  - inversion Hqs as [|? q1 ? qs0 Hy Hl]; subst.
    inversion Hl as [|? q2 ? qs1 Hx Hl']; subst.
    exists (q2 :: q1 :: qs1). split; [by repeat constructor|constructor].
  - destruct (IH1 _ Hqs) as (qs1 & H1 & Hp1).
    destruct (IH2 _ H1) as (qs2 & H2 & Hp2).
    exists qs2. split; [done|by etrans].
Qed.

(** X12: the order of the arguments does not matter to [+] and [*]: on
    two lists of rationals that are permutations of each other each of
    them returns the same result, value and heap. *)
Theorem plusFn_mulFn_permutation (h : Heap) (args args' : list Value) (qs : list Qc) :
  Forall2 (rat_at h) args qs ->
  args ≡ₚ args' ->
  plusFn args h = plusFn args' h /\ mulFn args h = mulFn args' h.
Proof.
  intros H Hp. destruct (rat_at_perm h args args' Hp qs H) as (qs' & H' & Hq).
  rewrite (plusFn_fold _ _ _ H), (plusFn_fold _ _ _ H').
  rewrite (mulFn_fold _ _ _ H), (mulFn_fold _ _ _ H').
  by rewrite (fold_left_Qcplus_perm _ _ Hq), (fold_left_Qcmult_perm _ _ Hq).
Qed.

Lemma plusFn_mulFn_permutation_witness :
  let h := mkHeap [] [qc 3; qc 4; qc 5] [] in
  plusFn [VRat (Some 0); VRat (Some 1); VRat (Some 2)] h
  = plusFn [VRat (Some 2); VRat (Some 0); VRat (Some 1)] h
  /\ mulFn [VRat (Some 0); VRat (Some 1); VRat (Some 2)] h
     = mulFn [VRat (Some 2); VRat (Some 0); VRat (Some 1)] h.
Proof.
  intros h.
  apply (plusFn_mulFn_permutation h _ _ [qc 3; qc 4; qc 5]).
  - repeat constructor; eexists; split; reflexivity.
  - symmetry. apply (Permutation_cons_append [VRat (Some 0); VRat (Some 1)] (VRat (Some 2))).
Defined.

(** X13: subtracting [b] from [a] and adding [b] to the difference gives
    a rational that holds exactly the contents of [a]. *)
Theorem minusFn_plusFn_round_trip (h : Heap) (a b : addr) (qa qb : Qc) :
  rats h !! a = Some qa ->
  rats h !! b = Some qb ->
  exists sum h',
    (difference <- minusFn [VRat (Some a); VRat (Some b)] ;;
     plusFn [difference; VRat (Some b)]) h = (Ret sum, h')
    /\ rat_of h' sum = Some qa.
Proof.
  intros Ha Hb. eexists. eexists. unfold bind at 1.
  rewrite (minusFn_fold h (VRat (Some a)) qa (VRat (Some b)) [] [qb]); cycle 1.
  { by exists a. }
  { repeat constructor. by exists b. }
  cbn [fold_left].
  set (h1 := push_rat (qa - qb)%Qc h).
  rewrite (plusFn_fold h1 [VRat (Some (length (rats h))); VRat (Some b)] [(qa - qb)%Qc; qb]);
    cycle 1.
  { repeat constructor.
    - eexists. split; [done|]. apply push_rat_lookup_new.
    - eexists. split; [done|]. by apply push_rat_lookup_old. }
  split; [reflexivity|]. cbn [rat_of fold_left].
  replace (Q2Qc 0 + (qa - qb) + qb)%Qc with qa by ring.
  apply push_rat_lookup_new.
Qed.

Lemma minusFn_plusFn_round_trip_witness :
  exists sum h',
    (difference <- minusFn [VRat (Some 0); VRat (Some 1)] ;;
     plusFn [difference; VRat (Some 1)]) (mkHeap [] [qc 7; qc 9] []) = (Ret sum, h')
    /\ rat_of h' sum = Some (qc 7).
Proof. apply (minusFn_plusFn_round_trip _ 0 1 (qc 7) (qc 9)); reflexivity. Defined.

(** ** Construction of closures *)

Lemma funcFn_shape scope args name i h :
  2 <= length args ->
  (name, i) = match args with
              | Symbol name :: _ => (name, 1)
              | _ => ("", 0)
              end ->
  funcFn scope args h
  = match args !! i with
    | Some (List params) =>
        if negb (forallb is_symbol params) then
          raise (ErrorString "func's list of parameters must be a list of symbols") h
        else if bool_decide (length (drop (i + 1) args) = 0) then
          raise (ErrorString "func takes a body sequence") h
        else
          (c <- new_closure (mkClosure scope name params (drop (i + 1) args)) ;;
           (if negb (bool_decide (name = "")) then
              scope <- captured_scope c ;; Scope_Create scope name (VClosure c)
            else ret tt) ;;;
           ret (VClosure c)) h
    | Some _ => raise (ErrorString "func takes a list of parameters") h
    | None => throw IndexOutOfRange h
    end.
Proof.
  intros Hlen Hni. unfold funcFn. rewrite bool_decide_eq_false_2 by lia.
  rewrite <- Hni. destruct (args !! i) as [[| params |]|]; try done.
  destruct (negb (forallb is_symbol params)); [done|].
  by destruct (bool_decide (length (drop (i + 1) args) = 0)).
Qed.

(** X14: [func] rejects a malformed form before it builds anything, the
    heap being unchanged: fewer than two operands; an operand in the
    position of the parameter list (the second after a leading symbol, the
    first otherwise) that is not a list; a parameter that is not a symbol;
    and a named form with a parameter list and no body. *)
Theorem funcFn_rejects_malformed (scope : addr) (h : Heap) :
  (forall args, length args < 2 ->
     funcFn scope args h = (Err (ErrorString "func takes three or more arguments"), h))
  /\ (forall name x rest, (forall params, x <> List params) ->
        funcFn scope (Symbol name :: x :: rest) h
        = (Err (ErrorString "func takes a list of parameters"), h))
  /\ (forall v y rest,
        funcFn scope (Lit v :: y :: rest) h
        = (Err (ErrorString "func takes a list of parameters"), h))
  /\ (forall params y rest, forallb is_symbol params = false ->
        funcFn scope (List params :: y :: rest) h
        = (Err (ErrorString "func's list of parameters must be a list of symbols"), h)
        /\ forall name,
             funcFn scope (Symbol name :: List params :: y :: rest) h
             = (Err (ErrorString "func's list of parameters must be a list of symbols"), h))
  /\ (forall name params, forallb is_symbol params = true ->
        funcFn scope [Symbol name; List params] h
        = (Err (ErrorString "func takes a body sequence"), h)).
Proof.
  split; [|split; [|split; [|split]]].
  - intros args Hlen. unfold funcFn. by rewrite bool_decide_eq_true_2.
  - intros name x rest Hx.
    rewrite (funcFn_shape scope _ name 1 h) by (cbn; done || lia).
    cbn. destruct x as [| params |]; try done. by destruct (Hx params).
  - intros v y rest.
    by rewrite (funcFn_shape scope _ "" 0 h) by (cbn; done || lia).
  - intros params y rest Hp. split; [|intros name].
    + rewrite (funcFn_shape scope _ "" 0 h) by (cbn; done || lia).
      cbn. by rewrite Hp.
    + rewrite (funcFn_shape scope _ name 1 h) by (cbn; done || lia).
      cbn. by rewrite Hp.
  - intros name params Hp.
    rewrite (funcFn_shape scope _ name 1 h) by (cbn; done || lia).
    cbn. by rewrite Hp.
Qed.

Lemma funcFn_rejects_malformed_witness :
  let h := root_heap [qc 1] in
  funcFn 0 [List []] h = (Err (ErrorString "func takes three or more arguments"), h)
  /\ funcFn 0 [Symbol "f"; Symbol "a"; Num 0] h
     = (Err (ErrorString "func takes a list of parameters"), h)
  /\ funcFn 0 [List [Symbol "a"; Num 0]; Num 0; Num 0] h
     = (Err (ErrorString "func's list of parameters must be a list of symbols"), h)
  /\ funcFn 0 [Symbol "f"; List [Symbol "a"]] h
     = (Err (ErrorString "func takes a body sequence"), h).
Proof.
  intros h.
  destruct (funcFn_rejects_malformed 0 h) as (Hlen & Hlist & _ & Hsym & Hbody).
  split; [|split; [|split]].
  - apply Hlen. cbn. lia.
  - apply Hlist. discriminate.
  - apply (Hsym [Symbol "a"; Num 0] (Num 0) [Num 0]). reflexivity.
  - apply Hbody. reflexivity.
Defined.

(** X15: a well-formed [func] adds one closure record, made of the scope
    it was evaluated in, the name, the parameter list and the body, and
    returns the closure.  Without a name (or with the empty name) it
    changes nothing else; with a name that the table of the current scope
    does not bind yet, it binds the name there to the closure, so that a
    lookup of the name from that scope returns the closure. *)
Theorem funcFn_defines (scope : addr) (params body : list Node) (h : Heap) :
  forallb is_symbol params = true ->
  body <> [] ->
  let c := length (closures h) in
  let record name := set_closures (fun l => l ++ [mkClosure scope name params body]) h in
  funcFn scope (List params :: body) h = (Ret (VClosure c), record "")
  /\ funcFn scope (Symbol "" :: List params :: body) h = (Ret (VClosure c), record "")
  /\ (forall name sc,
        name <> "" ->
        scopes h !! scope = Some sc ->
        vars sc !! name = None ->
        let h' := set_scopes
                    (fun l => <[scope := mkScope (parent sc) (<[name := VClosure c]> (vars sc))]> l)
                    (record name) in
        funcFn scope (Symbol name :: List params :: body) h = (Ret (VClosure c), h')
        /\ Scope_Lookup scope name h' = (Ret (VClosure c), h')).
Proof.
  intros Hp Hbody c record.
  assert (length body <> 0) as Hlen by (by destruct body).
  split; [|split].
  - destruct body as [|b body]; [done|].
    rewrite (funcFn_shape scope _ "" 0 h) by (cbn; done || lia).
    cbn -[bool_decide]. rewrite Hp. cbn [negb].
    by rewrite bool_decide_eq_false_2 by done.
  - rewrite (funcFn_shape scope _ "" 1 h) by (cbn; done || lia).
    cbn -[bool_decide]. rewrite Hp. cbn [negb].
    by rewrite bool_decide_eq_false_2 by done.
  - intros name sc Hname Hs Hfree h'.
    assert (funcFn scope (Symbol name :: List params :: body) h = (Ret (VClosure c), h')) as Hf.
    { rewrite (funcFn_shape scope _ name 1 h) by (cbn; done || lia).
      cbn -[bool_decide]. rewrite Hp. cbn [negb].
      rewrite bool_decide_eq_false_2 by done. rewrite drop_0.
      rewrite (bool_decide_eq_false_2 (name = "")) by done. cbn [negb].
      unfold bind at 1 2.
      rewrite (captured_scope_ok c (mkClosure scope name params body)); cycle 1.
      { cbn. by apply list_lookup_middle. }
      cbn [cl_scope]. unfold Scope_Create, bind, load_scope.
      cbn [scopes set_closures]. by rewrite Hs, Hfree. }
    split; [done|].
    eapply Scope_Lookup_bound.
    + cbn. apply list_lookup_insert_eq. by eapply lookup_lt_Some.
    + cbn. apply lookup_insert_eq.
Qed.

Lemma funcFn_defines_witness :
  let h := root_heap [qc 1] in
  exists h', funcFn 0 [Symbol "id"; List [Symbol "a"]; Symbol "a"] h = (Ret (VClosure 0), h')
    /\ Scope_Lookup 0 "id" h' = (Ret (VClosure 0), h').
Proof.
  intros h.
  destruct (funcFn_defines 0 [Symbol "a"] [Symbol "a"] h eq_refl) as (_ & _ & Hnamed).
  { discriminate. }
  eexists. apply (Hnamed "id" (mkScope None (list_to_map defaultGlobals))).
  - discriminate.
  - reflexivity.
  - reflexivity.
Defined.

(** X16: a closure with pairwise distinct parameter names, invoked with as
    many arguments as it has parameters, runs its body in a heap in which
    a lookup of each parameter from the scope of the invocation (the new
    scope at the end of the heap) returns the argument at the same
    position. *)
Theorem fn_binds_parameters (Eval : addr -> Node -> M Value)
    (c : addr) (cl : Closure) (names : list string) (args : list Value) (h : Heap) :
  closures h !! c = Some cl ->
  cl_params cl = map Symbol names ->
  NoDup names ->
  length args = length names ->
  is_Some (scopes h !! cl_scope cl) ->
  exists g,
    fn Eval c args h = fn_body Eval c (cl_body cl) VNil g
    /\ captured_scope c g = (Ret (length (scopes h)), g)
    /\ (forall j x v, names !! j = Some x -> args !! j = Some v ->
          Scope_Lookup (length (scopes h)) x g = (Ret v, g)).
Proof.
  intros Hc Hp Hnd Hlen Hs.
  destruct (fn_reassigns_captured_scope Eval c cl names args h Hc Hp Hnd Hlen Hs)
    as (g & sc & Hfn & Hc' & Hn & _ & Hval).
  exists g. split; [done|]. split.
  - by rewrite (captured_scope_ok _ _ _ Hc').
  - intros j x v Hj Hv. eapply Scope_Lookup_bound; [done|]. by eapply Hval.
Qed.

Lemma fn_binds_parameters_witness :
  let h := set_closures (fun _ => [mkClosure 0 "f" [Symbol "a"; Symbol "b"] [Symbol "b"]])
                        (root_heap []) in
  exists g,
    fn (Scope_Eval 3) 0 [VNil; VBool true] h = fn_body (Scope_Eval 3) 0 [Symbol "b"] VNil g
    /\ Scope_Lookup 1 "b" g = (Ret (VBool true), g).
Proof.
  intros h.
  destruct (fn_binds_parameters (Scope_Eval 3) 0 _ ["a"; "b"] [VNil; VBool true] h eq_refl)
    as (g & Hfn & _ & Hlookup).
  - reflexivity.
  - apply NoDup_cons. split; [|apply NoDup_singleton].
    by intros [=]%list_elem_of_singleton.
  - reflexivity.
  - eexists. reflexivity.
  - exists g. split; [exact Hfn|]. by apply (Hlookup 1 "b" (VBool true)).
Defined.

(** ** Binding forms *)

(** X17: [var] and [set] check the shape of the form before they evaluate
    anything, whatever the evaluation function: [var] with no operand or
    more than two, or with a first operand that is not a symbol, and [set]
    with a number of operands other than two, or with a first operand that
    is not a symbol, fail with their message in an unchanged heap. *)
Theorem varFn_setFn_reject_malformed (Eval : addr -> Node -> M Value) (scope : addr)
    (args : list Node) (h : Heap) :
  (length args = 0 \/ 2 < length args ->
     varFn Eval scope args h = (Err (ErrorString "var takes one or two arguments"), h))
  /\ (1 <= length args <= 2 -> (forall name, head args <> Some (Symbol name)) ->
        varFn Eval scope args h
        = (Err (ErrorString "var takes a symbol as first argument"), h))
  /\ (length args <> 2 ->
        setFn Eval scope args h
        = (Err (ErrorString ("function " +:+ dq +:+ "set" +:+ dq +:+ " takes two arguments")), h))
  /\ (length args = 2 -> (forall name, head args <> Some (Symbol name)) ->
        setFn Eval scope args h
        = (Err (ErrorString ("function " +:+ dq +:+ "set" +:+ dq
                             +:+ " takes a symbol as first argument")), h)).
Proof.
  split; [|split; [|split]].
  - intros Hlen. unfold varFn. destruct Hlen as [Hlen|Hlen].
    + by rewrite (bool_decide_eq_true_2 (length args = 0)).
    + rewrite (bool_decide_eq_true_2 (2 < length args)) by done. by rewrite orb_true_r.
  - intros Hlen Hsym. unfold varFn.
    rewrite !bool_decide_eq_false_2 by lia. cbn [orb].
    destruct args as [|[name| |] rest]; try done. by destruct (Hsym name).
  - intros Hlen. by destruct args as [|x [|y [|]]].
  - intros Hlen Hsym. destruct args as [|x [|y [|]]]; try done.
    destruct x as [name| |]; try done. by destruct (Hsym name).
Qed.

Lemma varFn_setFn_reject_malformed_witness :
  let h := root_heap [qc 1] in
  let effect := call "var" [Symbol "z"] in
  varFn (Scope_Eval 3) 0 [Num 0; effect] h
  = (Err (ErrorString "var takes a symbol as first argument"), h)
  /\ setFn (Scope_Eval 3) 0 [Num 0; effect] h
     = (Err (ErrorString ("function " +:+ dq +:+ "set" +:+ dq
                          +:+ " takes a symbol as first argument")), h)
  /\ varFn (Scope_Eval 3) 0 [] h = (Err (ErrorString "var takes one or two arguments"), h)
  /\ setFn (Scope_Eval 3) 0 [Symbol "x"] h
     = (Err (ErrorString ("function " +:+ dq +:+ "set" +:+ dq +:+ " takes two arguments")), h).
Proof.
  intros h effect. split; [|split; [|split]].
  - apply (proj1 (proj2 (varFn_setFn_reject_malformed (Scope_Eval 3) 0 [Num 0; effect] h))).
    + cbn. lia.
    + discriminate.
  - apply (proj2 (proj2 (proj2
             (varFn_setFn_reject_malformed (Scope_Eval 3) 0 [Num 0; effect] h)))).
    + reflexivity.
    + discriminate.
  - apply (proj1 (varFn_setFn_reject_malformed (Scope_Eval 3) 0 [] h)). by left.
  - apply (proj1 (proj2 (proj2
             (varFn_setFn_reject_malformed (Scope_Eval 3) 0 [Symbol "x"] h)))).
    cbn. lia.
Defined.

Lemma Scope_Lookup_unbound_find s name h :
  Scope_Lookup s name h = (Err (UnboundSymbol name), h) ->
  find s name h = (Err (UnboundSymbol name), h).
Proof.
  unfold Scope_Lookup, bind.
  destruct (find s name h) as [[a|e|p|] g] eqn:Hf.
  - intros H. exfalso. unfold find in Hf. injection Hf as Hf <-.
    destruct (Scope_find_sound _ _ _ _ _ Hf) as (sc & Ha & [v Hv]).
    unfold load_scope in H. rewrite Ha, Hv in H. discriminate.
  - intros [= -> ->]. first [reflexivity | exact Hf].
  - discriminate.
  - discriminate.
Qed.

(** X18: the binding forms evaluate their operand first and fail, in the
    heap that evaluation left, when the scope refuses the binding: [var]
    with DuplicateBinding when the table of the current scope already
    binds the name, which keeps its value; [set] with UnboundSymbol when a
    lookup of the name from the current scope fails as unbound. *)
Theorem varFn_setFn_refused (Eval : addr -> Node -> M Value) (scope : addr)
    (name : string) (operand : Node) (h h1 : Heap) (v : Value) :
  Eval scope operand h = (Ret v, h1) ->
  (forall sc old,
     scopes h1 !! scope = Some sc -> vars sc !! name = Some old ->
     varFn Eval scope [Symbol name; operand] h = (Err (DuplicateBinding name), h1))
  /\ (Scope_Lookup scope name h1 = (Err (UnboundSymbol name), h1) ->
      setFn Eval scope [Symbol name; operand] h = (Err (UnboundSymbol name), h1)).
Proof.
  intros He. split.
  - intros sc old Hs Hold. unfold varFn. cbn [length].
    rewrite !bool_decide_eq_false_2 by lia. cbn [orb].
    rewrite (bind_Ret _ _ _ _ _ He).
    unfold bind, Scope_Create, bind, load_scope. by rewrite Hs, Hold.
  - intros Hl%Scope_Lookup_unbound_find. unfold setFn.
    rewrite (bind_Ret _ _ _ _ _ He).
    unfold bind at 1. unfold Scope_Set, bind at 1. by rewrite Hl.
Qed.

Lemma varFn_setFn_refused_witness :
  let h := root_heap [qc 1] in
  varFn (Scope_Eval 3) 0 [Symbol "nil"; Num 0] h = (Err (DuplicateBinding "nil"), h)
  /\ setFn (Scope_Eval 3) 0 [Symbol "y"; Num 0] h = (Err (UnboundSymbol "y"), h).
Proof.
  intros h. split.
  - apply (proj1 (varFn_setFn_refused (Scope_Eval 3) 0 "nil" (Num 0) h h (VRat (Some 0)) eq_refl)
             (mkScope None (list_to_map defaultGlobals)) VNil); reflexivity.
  - apply (proj2 (varFn_setFn_refused (Scope_Eval 3) 0 "y" (Num 0) h h (VRat (Some 0)) eq_refl)).
    reflexivity.
Defined.
